(** * gsync-liveness: the liveness session of [src/App.tsx] and the
      verification client of [services/geminiService.ts]

    The development follows the source files:
    - [types.ts]: [GyroData], [LivenessStatus], [Challenge],
      [VerificationResult];
    - [services/geminiService.ts]: [verifyLiveness], on top of a model of the
      built-in [JSON.parse];
    - [App.tsx]: the React state of [App], the handlers [handleOrientation],
      [captureFrame], [startVerification] (with its timer callback), [reset],
      [initializeGyro] and [startCamera], and the conditions under which the
      JSX renders the buttons that call them.

    A handler does not change the state in place: it issues [setX(..)] calls,
    a [setTimeout] and an awaited call, which React and the event loop carry
    out.  Handlers are therefore functions to lists of [Effect]s, and a
    [World] (React state, pending timers, calls in flight, clock) interprets
    them.  The code between two suspension points runs without interruption,
    so the worlds are those between two events. *)

From Stdlib Require Import ZArith NArith QArith Qround List String Ascii Bool Lia.
From Stdlib Require Import Floats Uint63.
Import ListNotations.

Set Warnings "-register-all".

(* ================================================================== *)
(** ** JavaScript values *)

(** A JavaScript string is a sequence of UTF-16 code units. *)
Definition jsstring := list N.

(** The code units of an ASCII literal of the source. *)
Definition lit (s : string) : jsstring :=
  List.map N_of_ascii (list_ascii_of_string s).

Definition jsstring_eqb (a b : jsstring) : bool :=
  if list_eq_dec N.eq_dec a b then true else false.

(** What an exception carries.  [RemoteError] stands for whatever
    [generateContent] rejects with. *)
Inductive JsError :=
| SyntaxError
| TypeError
| RemoteError (message : jsstring).

(** Completion of a call that may throw (or of a promise that may reject). *)
Inductive Completion (A : Type) :=
| Return (a : A)
| Throw (e : JsError).
Arguments Return {A} a.
Arguments Throw {A} e.

(** The values [JSON.parse] can produce.  A number is an IEEE 754 binary64,
    an object keeps its members in source order. *)
Inductive JsValue :=
| JNull
| JBool (b : bool)
| JNumber (x : float)
| JString (s : jsstring)
| JArray (elements : list JsValue)
| JObject (members : list (jsstring * JsValue)).

(** [ToBoolean] of a property read; [None] is [undefined]. *)
Definition truthy (v : option JsValue) : bool :=
  match v with
  | None => false
  | Some JNull => false
  | Some (JBool b) => b
  | Some (JNumber x) => negb (PrimFloat.is_zero x || PrimFloat.is_nan x)
  | Some (JString s) => match s with [] => false | _ => true end
  | Some (JArray _) => true
  | Some (JObject _) => true
  end.

(** The own property [k] of an object built by [JSON.parse]: of two members
    with the same key the later one wins. *)
Fixpoint lookup (k : jsstring) (members : list (jsstring * JsValue))
  : option JsValue :=
  match members with
  | [] => None
  | (k', v) :: rest =>
      match lookup k rest with
      | Some w => Some w
      | None => if jsstring_eqb k k' then Some v else None
      end
  end.

(* ================================================================== *)
(** ** [JSON.parse]

    The built-in is not part of the repository; this is a model of it on the
    JSON grammar (ECMA-404), written as a one-pass pushdown automaton over the
    code units so that it is total without fuel. *)

Module JSON.

(** *** Numbers: decimal literal to binary64, round to nearest even *)

Definition is_digit (c : N) : bool := ((48 <=? c) && (c <=? 57))%N.

Definition digit_val (c : N) : Z := Z.of_N c - 48.

Definition digits_val (ds : list N) : Z :=
  fold_left (fun acc c => 10 * acc + digit_val c)%Z ds 0%Z.

Definition round_half_even (num den : Z) : Z :=
  let q := (num / den)%Z in
  let r := (num mod den)%Z in
  if (2 * r <? den)%Z then q
  else if (den <? 2 * r)%Z then (q + 1)%Z
  else if Z.even q then q else (q + 1)%Z.

(** [den * 2^k <= num], for any sign of [k]. *)
Definition scaled_le (num den k : Z) : bool :=
  if (0 <=? k)%Z then (den * 2 ^ k <=? num)%Z
  else (den <=? num * 2 ^ (- k))%Z.

(** The double nearest to [m * 10^e], for [0 <= m < 10^len]. *)
Definition decimal_to_double (len m e : Z) : float :=
  if (m =? 0)%Z then 0%float
  else if (400 <? e)%Z then infinity
  else if (len + e <? -400)%Z then 0%float
  else
    let num := if (0 <=? e)%Z then (m * 10 ^ e)%Z else m in
    let den := if (0 <=? e)%Z then 1%Z else (10 ^ (- e))%Z in
    let k0 := (Z.log2 num - Z.log2 den)%Z in
    let k := if scaled_le num den k0 then k0 else (k0 - 1)%Z in
    let p := Z.max (k - 52) (-1074) in
    let q := if (0 <=? p)%Z then round_half_even num (den * 2 ^ p)
             else round_half_even (num * 2 ^ (- p)) den in
    Z.ldexp (of_uint63 (Uint63.of_Z q)) p.

Definition span_digits (s : list N) : list N * list N :=
  (fix go (s : list N) : list N * list N :=
     match s with
     | c :: r => if is_digit c then let (ds, r') := go r in (c :: ds, r')
                 else ([], s)
     | [] => ([], [])
     end) s.

(** The whole word must be a JSON number: an optional minus sign; an integer
    part that is a single 0 or starts with a digit from 1 to 9; an optional
    fraction (a dot and one or more digits); an optional exponent (e or E, an
    optional sign, one or more digits). *)
Definition number_of_word (w : list N) : option float :=
  let (neg, w1) := match w with 45%N :: r => (true, r) | _ => (false, w) end in
  let (ip, w2) := span_digits w1 in
  let int_ok := match ip with
                | [] => false
                | [_] => true
                | 48%N :: _ => false
                | _ => true
                end in
  let '(fp, frac_ok, w3) :=
    match w2 with
    | 46%N :: r => let (fp, r') := span_digits r in
                   (fp, match fp with [] => false | _ => true end, r')
    | _ => ([], true, w2)
    end in
  let '(ex, exp_ok, w4) :=
    match w3 with
    | c :: r =>
        if ((c =? 101) || (c =? 69))%N then
          let (eneg, r1) := match r with
                            | 45%N :: r1 => (true, r1)
                            | 43%N :: r1 => (false, r1)
                            | _ => (false, r)
                            end in
          let (ed, r2) := span_digits r1 in
          ((if eneg then - digits_val ed else digits_val ed)%Z,
           match ed with [] => false | _ => true end, r2)
        else (0%Z, true, w3)
    | [] => (0%Z, true, w3)
    end in
  match w4 with
  | [] =>
      if int_ok && frac_ok && exp_ok then
        let ds := (ip ++ fp)%list in
        let x := decimal_to_double (Z.of_nat (List.length ds)) (digits_val ds)
                   (ex - Z.of_nat (List.length fp)) in
        Some (if neg then PrimFloat.opp x else x)
      else None
  | _ => None
  end.

(** *** Tokens *)

Inductive Token :=
| TLBrace | TRBrace | TLBracket | TRBracket | TColon | TComma
| TString (s : jsstring)
| TScalar (v : JsValue).

Definition is_ws (c : N) : bool :=
  ((c =? 32) || (c =? 9) || (c =? 10) || (c =? 13))%N.

Definition is_letter (c : N) : bool :=
  (((97 <=? c) && (c <=? 122)) || ((65 <=? c) && (c <=? 90)))%N.

(** The code units a number or a literal name is made of. *)
Definition is_word_char (c : N) : bool :=
  (is_digit c || is_letter c || (c =? 43) || (c =? 45) || (c =? 46))%N.

Definition punctuation (c : N) : option Token :=
  match c with
  | 123%N => Some TLBrace
  | 125%N => Some TRBrace
  | 91%N => Some TLBracket
  | 93%N => Some TRBracket
  | 58%N => Some TColon
  | 44%N => Some TComma
  | _ => None
  end.

Definition hex_val (c : N) : option N :=
  if is_digit c then Some (c - 48)%N
  else if ((97 <=? c) && (c <=? 102))%N then Some (c - 87)%N
  else if ((65 <=? c) && (c <=? 70))%N then Some (c - 55)%N
  else None.

Definition escape (c : N) : option N :=
  match c with
  | 34%N => Some 34%N     (* quotation mark *)
  | 92%N => Some 92%N     (* reverse solidus *)
  | 47%N => Some 47%N     (* solidus *)
  | 98%N => Some 8%N      (* backspace *)
  | 102%N => Some 12%N    (* form feed *)
  | 110%N => Some 10%N    (* line feed *)
  | 114%N => Some 13%N    (* carriage return *)
  | 116%N => Some 9%N     (* tab *)
  | _ => None
  end.

Definition token_of_word (w : list N) : option Token :=
  if jsstring_eqb w (lit "true") then Some (TScalar (JBool true))
  else if jsstring_eqb w (lit "false") then Some (TScalar (JBool false))
  else if jsstring_eqb w (lit "null") then Some (TScalar JNull)
  else match number_of_word w with
       | Some x => Some (TScalar (JNumber x))
       | None => None
       end.

(** *** The pushdown automaton *)

(** An open container: an array with the elements read so far, an object
    between members, an object whose member [key] waits for its value.  The
    lists are in reverse order. *)
Inductive Frame :=
| FArray (elements : list JsValue)
| FObject (members : list (jsstring * JsValue))
| FMember (members : list (jsstring * JsValue)) (key : jsstring).

Inductive Expect :=
| EValue
| EValueOrClose
| EKey
| EKeyOrClose
| EColon (key : jsstring)
| ECommaOrClose
| EEnd (v : JsValue).

Definition Parser : Type := list Frame * Expect.

(** A value is complete: it goes to the innermost open container. *)
Definition deliver (v : JsValue) (stack : list Frame) : option Parser :=
  match stack with
  | [] => Some ([], EEnd v)
  | FArray acc :: st => Some (FArray (v :: acc) :: st, ECommaOrClose)
  | FMember acc k :: st => Some (FObject ((k, v) :: acc) :: st, ECommaOrClose)
  | FObject _ :: _ => None
  end.

Definition close_array (stack : list Frame) : option Parser :=
  match stack with
  | FArray acc :: st => deliver (JArray (rev acc)) st
  | _ => None
  end.

Definition close_object (stack : list Frame) : option Parser :=
  match stack with
  | FObject acc :: st => deliver (JObject (rev acc)) st
  | _ => None
  end.

Definition open_or_deliver (t : Token) (stack : list Frame) : option Parser :=
  match t with
  | TScalar v => deliver v stack
  | TString s => deliver (JString s) stack
  | TLBracket => Some (FArray [] :: stack, EValueOrClose)
  | TLBrace => Some (FObject [] :: stack, EKeyOrClose)
  | _ => None
  end.

Definition feed (t : Token) (p : Parser) : option Parser :=
  let (stack, expect) := p in
  match expect with
  | EValue => open_or_deliver t stack
  | EValueOrClose =>
      match t with
      | TRBracket => close_array stack
      | _ => open_or_deliver t stack
      end
  | EKey =>
      match t with
      | TString k => Some (stack, EColon k)
      | _ => None
      end
  | EKeyOrClose =>
      match t with
      | TString k => Some (stack, EColon k)
      | TRBrace => close_object stack
      | _ => None
      end
  | EColon k =>
      match t, stack with
      | TColon, FObject acc :: st => Some (FMember acc k :: st, EValue)
      | _, _ => None
      end
  | ECommaOrClose =>
      match t, stack with
      | TComma, FArray _ :: _ => Some (stack, EValue)
      | TComma, FObject _ :: _ => Some (stack, EKey)
      | TRBracket, _ => close_array stack
      | TRBrace, _ => close_object stack
      | _, _ => None
      end
  | EEnd _ => None
  end.

(** *** The lexer, feeding the automaton *)

Inductive Lexer :=
| LStart
| LWord (w : list N)                     (* reversed *)
| LString (s : list N)                   (* reversed *)
| LEscape (s : list N)
| LUnicode (s : list N) (value : N) (count : nat).

(** A code unit outside a word and outside a string. *)
Definition start (c : N) (p : Parser) : option (Lexer * Parser) :=
  if is_ws c then Some (LStart, p)
  else if (c =? 34)%N then Some (LString [], p)
  else if is_word_char c then Some (LWord [c], p)
  else match punctuation c with
       | Some t => option_map (pair LStart) (feed t p)
       | None => None
       end.

Definition end_word (w : list N) (p : Parser) : option Parser :=
  match token_of_word (rev w) with
  | Some t => feed t p
  | None => None
  end.

Definition step (st : Lexer * Parser) (c : N) : option (Lexer * Parser) :=
  let (lx, p) := st in
  match lx with
  | LStart => start c p
  | LWord w =>
      if is_word_char c then Some (LWord (c :: w), p)
      else match end_word w p with
           | Some p' => start c p'
           | None => None
           end
  | LString s =>
      if (c =? 34)%N then option_map (pair LStart) (feed (TString (rev s)) p)
      else if (c =? 92)%N then Some (LEscape s, p)
      else if (c <? 32)%N then None
      else Some (LString (c :: s), p)
  | LEscape s =>
      if (c =? 117)%N then Some (LUnicode s 0%N 0%nat, p)
      else match escape c with
           | Some x => Some (LString (x :: s), p)
           | None => None
           end
  | LUnicode s value count =>
      match hex_val c with
      | Some h =>
          let value' := (16 * value + h)%N in
          match count with
          | 3%nat => Some (LString (value' :: s), p)
          | _ => Some (LUnicode s value' (S count), p)
          end
      | None => None
      end
  end.

Fixpoint run (st : Lexer * Parser) (text : list N) : option (Lexer * Parser) :=
  match text with
  | [] => Some st
  | c :: rest =>
      match step st c with
      | Some st' => run st' rest
      | None => None
      end
  end.

(** At the end of the text exactly one value must have been read. *)
Definition finish (st : Lexer * Parser) : option JsValue :=
  let (lx, p) := st in
  let p' := match lx with
            | LStart => Some p
            | LWord w => end_word w p
            | _ => None
            end in
  match p' with
  | Some ([], EEnd v) => Some v
  | _ => None
  end.

(** [JSON.parse(text)]: the value, or a [SyntaxError]. *)
Definition parse (text : jsstring) : Completion JsValue :=
  match run (LStart, ([], EValue)) text with
  | Some st =>
      match finish st with
      | Some v => Return v
      | None => Throw SyntaxError
      end
  | None => Throw SyntaxError
  end.

End JSON.

(* ================================================================== *)
(** ** [types.ts] *)

(** Each angle is [number | null]. *)
Record GyroData := {
  alpha : option float;   (* rotation around the z-axis *)
  beta : option float;    (* rotation around the x-axis *)
  gamma : option float    (* rotation around the y-axis *)
}.

Inductive LivenessStatus :=
| IDLE
| INITIALIZING
| CHALLENGE_REQUESTED
| RECORDING
| VERIFYING
| SUCCESS
| FAILED.

Inductive Movement :=
| tilt_up | tilt_down | rotate_left | rotate_right | steady.

Record Challenge := {
  instruction : string;
  expectedMovement : Movement;
  id : string
}.

Record VerificationResult := {
  isLive : bool;
  confidence : float;
  reasoning : jsstring
}.

Definition LivenessStatus_eqb (a b : LivenessStatus) : bool :=
  match a, b with
  | IDLE, IDLE | INITIALIZING, INITIALIZING
  | CHALLENGE_REQUESTED, CHALLENGE_REQUESTED | RECORDING, RECORDING
  | VERIFYING, VERIFYING | SUCCESS, SUCCESS | FAILED, FAILED => true
  | _, _ => false
  end.

(** The object a well-typed verdict is at run time. *)
Definition js_of_verdict (v : VerificationResult) : JsValue :=
  JObject [ (lit "isLive", JBool (isLive v));
            (lit "confidence", JNumber (confidence v));
            (lit "reasoning", JString (reasoning v)) ].

(** Reading a run-time value at type [VerificationResult]: an object with the
    three required members at their types; other members are ignored. *)
Definition as_verdict (x : JsValue) : option VerificationResult :=
  match x with
  | JObject ms =>
      match lookup (lit "isLive") ms, lookup (lit "confidence") ms,
            lookup (lit "reasoning") ms with
      | Some (JBool b), Some (JNumber c), Some (JString r) =>
          Some {| isLive := b; confidence := c; reasoning := r |}
      | _, _, _ => None
      end
  | _ => None
  end.

(* ================================================================== *)
(** ** [services/geminiService.ts] *)

Module GeminiLivenessService.

(** What [verifyLiveness] hands to [generateContent]: the prompt is built
    from the challenge and the three angles (their rendering with [toFixed]
    is not modelled), the inline data is the image. *)
Record Request := {
  prompt_instruction : string;
  prompt_target : Movement;
  prompt_gyro : GyroData;
  inlineData : string
}.

(** Of the response only [response.text] is read; it may be [undefined]. *)
Record Response := { text : option jsstring }.

(** The remote service, as the call sees it: it resolves or rejects. *)
Definition Remote : Type := Request -> Completion Response.

(** [response.text || '{}'] *)
Definition text_or_default (response : Response) : jsstring :=
  match text response with
  | None => lit "{}"
  | Some [] => lit "{}"
  | Some t => t
  end.

(** [async verifyLiveness(base64Image, gyroData, challenge)].  The challenge
    comes from an array read and may be [undefined], in which case building
    the prompt throws before the service is called.  Inside [try], a failure
    is logged and thrown again. *)
Definition verifyLiveness (remote : Remote) (base64Image : string)
    (gyroData : GyroData) (challenge : option Challenge)
  : Completion JsValue :=
  match challenge with
  | None => Throw TypeError
  | Some c =>
      let request := {| prompt_instruction := instruction c;
                        prompt_target := expectedMovement c;
                        prompt_gyro := gyroData;
                        inlineData := base64Image |} in
      match remote request with
      | Throw e => Throw e
      | Return response => JSON.parse (text_or_default response)
      end
  end.

End GeminiLivenessService.
Import GeminiLivenessService.

(* ================================================================== *)
(** ** [App.tsx] *)

Module App.

Open Scope string_scope.

Definition CHALLENGES : list Challenge :=
  [ {| id := "1"; instruction := "Please tilt your phone UP slowly";
       expectedMovement := tilt_up |};
    {| id := "2"; instruction := "Please tilt your phone DOWN slowly";
       expectedMovement := tilt_down |};
    {| id := "3"; instruction := "Slowly rotate your phone to the LEFT";
       expectedMovement := rotate_left |};
    {| id := "4"; instruction := "Slowly rotate your phone to the RIGHT";
       expectedMovement := rotate_right |} ].

(** *** The React state of [App]

    One field per [useState].  [result] is declared
    [VerificationResult | null]; at run time it holds whatever
    [verifyLiveness] returned, so it is a [JsValue] here, [None] for
    [null]. *)
Record AppState := {
  status : LivenessStatus;
  gyro : GyroData;
  currentChallenge : option Challenge;
  result : option JsValue;
  isCameraReady : bool;
  isGyroReady : bool;
  error : option string
}.

(** The arguments of the [useState] calls. *)
Definition initialState : AppState :=
  {| status := IDLE;
     gyro := {| alpha := Some 0%float; beta := Some 0%float;
                gamma := Some 0%float |};
     currentChallenge := None;
     result := None;
     isCameraReady := false;
     isGyroReady := false;
     error := None |}.

(** A call of one of the state setters. *)
Inductive Update :=
| SetStatus (s : LivenessStatus)
| SetGyro (g : GyroData)
| SetCurrentChallenge (c : option Challenge)
| SetResult (r : option JsValue)
| SetIsCameraReady (b : bool)
| SetIsGyroReady (b : bool)
| SetError (e : option string).

Definition update (u : Update) (s : AppState) : AppState :=
  match u with
  | SetStatus x =>
      {| status := x; gyro := gyro s; currentChallenge := currentChallenge s;
         result := result s; isCameraReady := isCameraReady s;
         isGyroReady := isGyroReady s; error := error s |}
  | SetGyro x =>
      {| status := status s; gyro := x; currentChallenge := currentChallenge s;
         result := result s; isCameraReady := isCameraReady s;
         isGyroReady := isGyroReady s; error := error s |}
  | SetCurrentChallenge x =>
      {| status := status s; gyro := gyro s; currentChallenge := x;
         result := result s; isCameraReady := isCameraReady s;
         isGyroReady := isGyroReady s; error := error s |}
  | SetResult x =>
      {| status := status s; gyro := gyro s;
         currentChallenge := currentChallenge s;
         result := x; isCameraReady := isCameraReady s;
         isGyroReady := isGyroReady s; error := error s |}
  | SetIsCameraReady x =>
      {| status := status s; gyro := gyro s;
         currentChallenge := currentChallenge s;
         result := result s; isCameraReady := x;
         isGyroReady := isGyroReady s; error := error s |}
  | SetIsGyroReady x =>
      {| status := status s; gyro := gyro s;
         currentChallenge := currentChallenge s;
         result := result s; isCameraReady := isCameraReady s;
         isGyroReady := x; error := error s |}
  | SetError x =>
      {| status := status s; gyro := gyro s;
         currentChallenge := currentChallenge s;
         result := result s; isCameraReady := isCameraReady s;
         isGyroReady := isGyroReady s; error := x |}
  end.

(** The variables the callback given to [setTimeout] closes over: the
    [gyro] of the render [startVerification] belongs to, and the picked
    [challenge]. *)
Record TimerCallback := {
  closure_gyro : GyroData;
  closure_challenge : option Challenge
}.

(** The arguments of one call of [geminiService.verifyLiveness]. *)
Record VerifyCall := {
  arg_frame : string;
  arg_gyro : GyroData;
  arg_challenge : option Challenge
}.

(** What a handler asks for, in program order. *)
Inductive Effect :=
| SetState (u : Update)
| SetTimeout (callback : TimerCallback) (delay : Z)
| AwaitVerifyLiveness (call : VerifyCall).

(** *** [handleOrientation] *)

Record DeviceOrientationEvent := {
  event_alpha : option float;
  event_beta : option float;
  event_gamma : option float
}.

(** [x ?? 0] *)
Definition or_zero (x : option float) : float :=
  match x with
  | Some v => v
  | None => 0%float
  end.

Definition handleOrientation (event : DeviceOrientationEvent) : list Effect :=
  [ SetState (SetGyro {| alpha := Some (or_zero (event_alpha event));
                     beta := Some (or_zero (event_beta event));
                     gamma := Some (or_zero (event_gamma event)) |});
    SetState (SetIsGyroReady true) ].

(** *** [captureFrame] *)

Record Video := { videoWidth : Z; videoHeight : Z }.

(** Of the canvas: whether [getContext('2d')] gives a context, and what
    [toDataURL('image/jpeg', 0.8)] returns once the video is drawn on it.
    Neither [drawImage] nor [toDataURL] throws for a canvas fed by the
    camera. *)
Record Canvas := { context2d : bool; toDataURL : string }.

(** [videoRef.current] and [canvasRef.current] when the callback runs. *)
Record Dom := { videoRef : option Video; canvasRef : option Canvas }.

Definition comma : ascii := ","%char.

Fixpoint after_comma (s : string) : option string :=
  match s with
  | EmptyString => None
  | String c r => if Ascii.eqb c comma then Some r else after_comma r
  end.

Fixpoint until_comma (s : string) : string :=
  match s with
  | EmptyString => EmptyString
  | String c r => if Ascii.eqb c comma then EmptyString
                  else String c (until_comma r)
  end.

(** [s.split(',')[1]]; [None] is [undefined]. *)
Definition split_comma_1 (s : string) : option string :=
  option_map until_comma (after_comma s).

(** The canvas takes the size of the video; a canvas without pixels
    serialises to ["data:,"]. *)
Definition dataURL (video : Video) (canvas : Canvas) : string :=
  if ((videoWidth video =? 0) || (videoHeight video =? 0))%Z then "data:,"
  else toDataURL canvas.

(** [string | null]; [None] also stands for the [undefined] of the split. *)
Definition captureFrame (dom : Dom) : option string :=
  match videoRef dom, canvasRef dom with
  | Some video, Some canvas =>
      if context2d canvas then split_comma_1 (dataURL video canvas) else None
  | _, _ => None
  end.

(** *** [startVerification] *)

(** [CHALLENGES[Math.floor(rnd * CHALLENGES.length)]] where [rnd] is the
    value of [Math.random()].  A finite double is a rational and the product
    with the length 4 is exact, so the index is computed in [Q].  [None] is
    the [undefined] of an index outside the array. *)
Definition pickChallenge (rnd : Q) : option Challenge :=
  let i := Qfloor (rnd * inject_Z (Z.of_nat (List.length CHALLENGES))) in
  if (i <? 0)%Z then None else nth_error CHALLENGES (Z.to_nat i).

Definition capture_failed : string := "Failed to capture camera frame.".

Definition service_unavailable : string :=
  "Verification service unavailable. Check your internet connection.".

(** The body of [startVerification] up to and including [setTimeout];
    [render] is the state of the render the handler was created in. *)
Definition startVerification (render : AppState) (rnd : Q) : list Effect :=
  let challenge := pickChallenge rnd in
  [ SetState (SetResult None);
    SetState (SetError None);
    SetState (SetStatus INITIALIZING);
    SetState (SetCurrentChallenge challenge);
    SetState (SetStatus CHALLENGE_REQUESTED);
    SetTimeout {| closure_gyro := gyro render;
                  closure_challenge := challenge |} 4000 ].

(** The timer callback, up to the [await].  [!frame] holds of [null], of
    [undefined] and of the empty string. *)
Definition timerCallback (cb : TimerCallback) (dom : Dom) : list Effect :=
  SetState (SetStatus VERIFYING) ::
  match captureFrame dom with
  | Some (String _ _ as frame) =>
      [ AwaitVerifyLiveness {| arg_frame := frame;
                               arg_gyro := closure_gyro cb;
                               arg_challenge := closure_challenge cb |} ]
  | _ => [ SetState (SetError (Some capture_failed)); SetState (SetStatus IDLE) ]
  end.

(** [setResult(x)] for a run-time value. *)
Definition nullable (x : JsValue) : option JsValue :=
  match x with
  | JNull => None
  | _ => Some x
  end.

(** [verification.isLive]: reading a property of [null] throws; values other
    than objects have no property of that name. *)
Definition get_isLive (verification : JsValue) : Completion (option JsValue) :=
  match verification with
  | JNull => Throw TypeError
  | JObject ms => Return (lookup (lit "isLive") ms)
  | _ => Return None
  end.

Definition on_catch : list Effect :=
  [ SetState (SetError (Some service_unavailable)); SetState (SetStatus IDLE) ].

(** The rest of the timer callback, once the awaited promise is settled. *)
Definition afterVerify (settled : Completion JsValue) : list Effect :=
  match settled with
  | Return verification =>
      SetState (SetResult (nullable verification)) ::
      match get_isLive verification with
      | Return b => [ SetState (SetStatus (if truthy b then SUCCESS else FAILED)) ]
      | Throw _ => on_catch
      end
  | Throw _ => on_catch
  end.

(** *** [reset] *)

Definition reset : list Effect :=
  [ SetState (SetStatus IDLE);
    SetState (SetResult None);
    SetState (SetCurrentChallenge None);
    SetState (SetError None) ].

(** *** Set-up: [initializeGyro] and [startCamera]

    Both are started by the set-up button and wait for the platform; what
    they do to the state depends on how the platform answers. *)

Inductive GyroOutcome :=
| PermissionDenied        (* [requestGyroPermission] gave [false] *)
| NotSupported            (* no [window.DeviceOrientationEvent] *)
| Listening.              (* the listener is attached *)

Definition initializeGyro (outcome : GyroOutcome) : list Effect :=
  match outcome with
  | PermissionDenied =>
      [ SetState (SetError (Some
          "Motion sensor access denied. Please allow motion sensor permissions to continue.")) ]
  | NotSupported =>
      [ SetState (SetError (Some
          "Device orientation not supported on this device.")) ]
  | Listening => []
  end.

Inductive CameraOutcome :=
| Streaming (videoMounted : bool)      (* [getUserMedia] resolved *)
| Rejected (name : string) (message : option string).

Definition startCamera (outcome : CameraOutcome) : list Effect :=
  match outcome with
  | Streaming true => [ SetState (SetIsCameraReady true) ]
  | Streaming false => []
  | Rejected name message =>
      if String.eqb name "NotAllowedError"
         || String.eqb name "PermissionDeniedError" then
        [ SetState (SetError (Some
            "Camera access denied. Please allow camera permissions to continue.")) ]
      else if String.eqb name "NotFoundError"
              || String.eqb name "DevicesNotFoundError" then
        [ SetState (SetError (Some
            "No camera found. Please ensure your device has a camera.")) ]
      else
        [ SetState (SetError (Some
            ("Camera error: " ++
             match message with
             | None | Some EmptyString => "Unknown error"
             | Some m => m
             end))) ]
  end.

(** The messages set-up can leave in [error]. *)
Definition isSetupMessage (m : string) : Prop :=
  (exists outcome, initializeGyro outcome = [ SetState (SetError (Some m)) ]) \/
  (exists outcome, startCamera outcome = [ SetState (SetError (Some m)) ]).

(** *** The rendered buttons *)

(** [status === LivenessStatus.IDLE && !isCameraReady]: the overlay whose
    button starts the set-up. *)
Definition showsSetup (s : AppState) : bool :=
  LivenessStatus_eqb (status s) IDLE && negb (isCameraReady s).

(** [isCameraReady && isGyroReady && status === LivenessStatus.IDLE]: the
    button whose [onClick] is [startVerification]. *)
Definition showsStart (s : AppState) : bool :=
  isCameraReady s && isGyroReady s && LivenessStatus_eqb (status s) IDLE.

(** [status === SUCCESS] and [status === FAILED]: the two overlays whose
    button calls [reset]. *)
Definition showsReset (s : AppState) : bool :=
  LivenessStatus_eqb (status s) SUCCESS || LivenessStatus_eqb (status s) FAILED.

End App.

(* ================================================================== *)
(** ** The running application

    React applies the queued setter calls in order; [setTimeout] registers
    the callback with the event loop; the awaited [verifyLiveness] stays in
    flight until the remote service settles it.  Nothing in [App.tsx] calls
    [clearTimeout], so a registered callback stays registered until it
    runs. *)

Module Session.
Import App.

Record World := {
  app : AppState;
  clock : Z;                                  (* milliseconds *)
  timers : list (Z * TimerCallback);          (* due time, callback *)
  inflight : list VerifyCall;                 (* awaited, not yet settled *)
  verifyCalls : list VerifyCall               (* every call made so far *)
}.

Definition initialWorld : World :=
  {| app := initialState; clock := 0; timers := []; inflight := [];
     verifyCalls := [] |}.

Definition perform (w : World) (e : Effect) : World :=
  match e with
  | SetState u =>
      {| app := update u (app w); clock := clock w; timers := timers w;
         inflight := inflight w; verifyCalls := verifyCalls w |}
  | SetTimeout cb delay =>
      {| app := app w; clock := clock w;
         timers := timers w ++ [((clock w + delay)%Z, cb)];
         inflight := inflight w; verifyCalls := verifyCalls w |}
  | AwaitVerifyLiveness call =>
      {| app := app w; clock := clock w; timers := timers w;
         inflight := inflight w ++ [call];
         verifyCalls := verifyCalls w ++ [call] |}
  end.

Definition performAll (es : list Effect) (w : World) : World :=
  fold_left perform es w.

Fixpoint remove_nth {A : Type} (i : nat) (l : list A) : list A :=
  match l, i with
  | [], _ => []
  | _ :: r, O => r
  | x :: r, S j => x :: remove_nth j r
  end.

(** *** The handlers, called directly *)

Definition call_startVerification (rnd : Q) (w : World) : World :=
  performAll (startVerification (app w) rnd) w.

Definition call_reset (w : World) : World := performAll reset w.

Definition elapse (d : Z) (w : World) : World :=
  {| app := app w; clock := (clock w + d)%Z; timers := timers w;
     inflight := inflight w; verifyCalls := verifyCalls w |}.

(** The event loop runs the [i]-th registered callback, if it is due. *)
Definition fire (i : nat) (dom : Dom) (w : World) : option World :=
  match nth_error (timers w) i with
  | Some (due, cb) =>
      if (due <=? clock w)%Z then
        Some (performAll (timerCallback cb dom)
                {| app := app w; clock := clock w;
                   timers := remove_nth i (timers w);
                   inflight := inflight w; verifyCalls := verifyCalls w |})
      else None
  | None => None
  end.

(** The remote service settles the [i]-th call in flight. *)
Definition settle (i : nat) (remote : Remote) (w : World) : option World :=
  match nth_error (inflight w) i with
  | Some call =>
      Some (performAll
              (afterVerify (verifyLiveness remote (arg_frame call)
                              (arg_gyro call) (arg_challenge call)))
              {| app := app w; clock := clock w; timers := timers w;
                 inflight := remove_nth i (inflight w);
                 verifyCalls := verifyCalls w |})
  | None => None
  end.

(** *** The session as the user and the environment drive it

    The two handlers are reachable only through their buttons.  Set-up is
    started from its button, which is rendered, and can be clicked again,
    until the camera is ready; each set-up then takes its two steps when the
    platform answers, which may be at any later time, also during or after an
    attempt.  The machine lets a step of set-up complete at any time. *)
Inductive Event :=
| ClickStart (rnd : Q)                  (* [rnd] is what [Math.random()] returns *)
| ClickReset
| Elapse (d : Z)
| TimerFires (i : nat) (dom : Dom)
| Settles (i : nat) (remote : Remote)
| Orientation (event : DeviceOrientationEvent)
| GyroInitialized (outcome : GyroOutcome)
| CameraSettled (outcome : CameraOutcome).


(** [Math.random()] is at least 0 and less than 1. *)
Definition is_random (rnd : Q) : bool :=
  Qle_bool 0 rnd && negb (Qle_bool 1 rnd).

Definition handle (e : Event) (w : World) : option World :=
  match e with
  | ClickStart rnd =>
      if showsStart (app w) && is_random rnd
      then Some (call_startVerification rnd w) else None
  | ClickReset =>
      if showsReset (app w) then Some (call_reset w) else None
  | Elapse d =>
      if (0 <=? d)%Z then Some (elapse d w) else None
  | TimerFires i dom => fire i dom w
  | Settles i remote => settle i remote w
  | Orientation event => Some (performAll (handleOrientation event) w)
  | GyroInitialized outcome => Some (performAll (initializeGyro outcome) w)
  | CameraSettled outcome => Some (performAll (startCamera outcome) w)
  end.

Fixpoint handleAll (es : list Event) (w : World) : option World :=
  match es with
  | [] => Some w
  | e :: rest =>
      match handle e w with
      | Some w' => handleAll rest w'
      | None => None
      end
  end.

Inductive reachable : World -> Prop :=
| reachable_initial : reachable initialWorld
| reachable_step w e w' :
    reachable w -> handle e w = Some w' -> reachable w'.

(** The world after a run of events from the initial one (the initial world
    itself when some event of the run is not enabled). *)
Definition after (es : list Event) : World :=
  match handleAll es initialWorld with
  | Some w => w
  | None => initialWorld
  end.

(** *** Reading a handler's effects *)

(** The statuses a handler sets, in order. *)
Fixpoint statusWrites (es : list Effect) : list LivenessStatus :=
  match es with
  | [] => []
  | SetState (SetStatus s) :: rest => s :: statusWrites rest
  | _ :: rest => statusWrites rest
  end.

(** The challenges a handler records, in order. *)
Fixpoint challengeWrites (es : list Effect) : list (option Challenge) :=
  match es with
  | [] => []
  | SetState (SetCurrentChallenge c) :: rest => c :: challengeWrites rest
  | _ :: rest => challengeWrites rest
  end.

(** *** What holds of every reachable world *)

(** The challenge is one of the catalog. *)
Definition catalogued (c : option Challenge) : Prop :=
  exists ch, c = Some ch /\ In ch CHALLENGES.

(** From the start of an attempt to the next failure or [reset], [error] is
    [null] or a message of set-up. *)
Definition AttemptError (e : option string) : Prop :=
  e = None \/ exists m, e = Some m /\ isSetupMessage m.

(** An attempt is waiting for its timer, or waiting for the remote service,
    or there is no attempt under way.  Once an attempt has been started the
    camera is ready. *)
Inductive Phase (w : World) : Prop :=
| Engaged due cb :
    timers w = [(due, cb)] -> inflight w = [] ->
    status (app w) = CHALLENGE_REQUESTED ->
    result (app w) = None -> AttemptError (error (app w)) ->
    catalogued (closure_challenge cb) ->
    currentChallenge (app w) = closure_challenge cb ->
    isCameraReady (app w) = true ->
    Phase w
| Awaiting call :
    timers w = [] -> inflight w = [call] ->
    status (app w) = VERIFYING ->
    result (app w) = None -> AttemptError (error (app w)) ->
    catalogued (arg_challenge call) ->
    isCameraReady (app w) = true ->
    Phase w
| AtRest :
    timers w = [] -> inflight w = [] ->
    (status (app w) = IDLE /\ result (app w) = None) \/
    ((status (app w) = SUCCESS \/ status (app w) = FAILED) /\
     result (app w) <> None /\ AttemptError (error (app w)) /\
     isCameraReady (app w) = true) ->
    Phase w.

(** Every angle is a number, and all are 0 until an orientation event has
    been handled. *)
Definition SensorInv (s : AppState) : Prop :=
  (exists a b c,
      gyro s = {| alpha := Some a; beta := Some b; gamma := Some c |}) /\
  (isGyroReady s = false -> gyro s = gyro initialState).

(** *** Sample data for the worked runs *)

Definition frontCamera : Dom :=
  {| videoRef := Some {| videoWidth := 640; videoHeight := 480 |};
     canvasRef := Some {| context2d := true;
                          toDataURL := "data:image/jpeg;base64,/9j/4AAQSkZJRg" |} |}.

Definition noCamera : Dom := {| videoRef := None; canvasRef := None |}.

Definition flat : DeviceOrientationEvent :=
  {| event_alpha := Some 10%float; event_beta := None;
     event_gamma := Some 3%float |}.

(** A remote service that answers every request with the same body. *)
Definition answering (body : option jsstring) : Remote :=
  fun _ => Return {| text := body |}.

(** A remote service that cannot be reached. *)
Definition unreachable : Remote :=
  fun _ => Throw (RemoteError (lit "fetch failed")).

Definition quote : string := String (ascii_of_nat 34) EmptyString.

(** The text of a JSON object with the three members of a verdict. *)
Definition body_of (live : string) (conf : string) (why : string) : jsstring :=
  lit ("{" ++ quote ++ "isLive" ++ quote ++ ":" ++ live ++ ","
       ++ quote ++ "confidence" ++ quote ++ ":" ++ conf ++ ","
       ++ quote ++ "reasoning" ++ quote ++ ":" ++ quote ++ why ++ quote ++ "}").

Definition liveBody : jsstring := body_of "true" "0.92" "synchronized motion".

Definition spoofBody : jsstring := body_of "false" "0.3" "no depth detected".

(** The verdicts those two bodies parse to; the confidences are the doubles
    nearest to 0.92 and to 0.3. *)
Definition liveVerdict : VerificationResult :=
  {| isLive := true; confidence := 0x1.d70a3d70a3d71p-1%float;
     reasoning := lit "synchronized motion" |}.

Definition spoofVerdict : VerificationResult :=
  {| isLive := false; confidence := 0x1.3333333333333p-2%float;
     reasoning := lit "no depth detected" |}.

(** Set-up, a click on the start button, and the timer running at its due
    time with a camera that delivers a frame. *)
Definition untilCall : list Event :=
  [ GyroInitialized Listening; CameraSettled (Streaming true);
    Orientation flat; ClickStart (1 # 2); Elapse 4000;
    TimerFires 0 frontCamera ].

(** The same, up to the moment the timer is due. *)
Definition untilTimer : list Event :=
  [ GyroInitialized Listening; CameraSettled (Streaming true);
    Orientation flat; ClickStart (1 # 2); Elapse 4000 ].

(** The set-up button is clicked twice before the camera is ready.  The
    first set-up succeeds, an attempt is started and its timer callback
    captures a frame; then the camera request of the second set-up is
    rejected, while the call of the attempt is in flight. *)
Definition overlappingSetup : list Event :=
  [ GyroInitialized Listening; GyroInitialized Listening;
    CameraSettled (Streaming true);
    Orientation flat; ClickStart (1 # 2); Elapse 4000;
    TimerFires 0 frontCamera;
    CameraSettled (Rejected "NotReadableError" None) ].

(** A camera whose video has no pixels yet. *)
Definition blankCamera : Dom :=
  {| videoRef := Some {| videoWidth := 0; videoHeight := 0 |};
     canvasRef := canvasRef frontCamera |}.

(** A session is started once set-up is done, [reset] is called [d1] ms
    later and a new session is started at once: the handlers are called
    directly, not through the buttons. *)
Definition restarted (rnd1 rnd2 : Q) (d1 : Z) : World :=
  call_startVerification rnd2
    (call_reset
       (elapse d1
          (call_startVerification rnd1
             (after [ GyroInitialized Listening;
                      CameraSettled (Streaming true); Orientation flat ])))).

End Session.

(* ================================================================== *)
(** ** The contract of the verification client, in the words of the
       specification *)

Module Spec.

(** The body parses into an object with the three required members
    [isLive] (boolean), [confidence] (number) and [reasoning] (string); an
    empty or missing body does not. *)
Definition body_verdict (body : option jsstring) : option VerificationResult :=
  match body with
  | None => None
  | Some t =>
      match JSON.parse t with
      | Return x => as_verdict x
      | Throw _ => None
      end
  end.

End Spec.

(* ================================================================== *)
(** ** [components/GyroVisualizer.tsx] *)

Module GyroVisualizer.

(** [Math.min] and [Math.max] of two numbers: [NaN] if either is, and of two
    zeros the negative one is the smaller. *)
Definition Math_min (a b : float) : float :=
  if is_nan a || is_nan b then nan
  else if PrimFloat.ltb a b then a
  else if PrimFloat.ltb b a then b
  else if PrimFloat.is_zero a && get_sign b then b else a.

Definition Math_max (a b : float) : float :=
  if is_nan a || is_nan b then nan
  else if PrimFloat.ltb a b then b
  else if PrimFloat.ltb b a then a
  else if PrimFloat.is_zero a && get_sign a then b else a.

(** [normalize]: the width of a bar in percent, for an angle between -90 and
    90 degrees. *)
Definition normalize (val : option float) : float :=
  match val with
  | None => 50%float
  | Some v =>
      let clamped := Math_max (-90)%float (Math_min 90%float v) in
      (((clamped + 90) / 180) * 100)%float
  end.

(** The three bars.  In [normalize(data.alpha ?? 0 / 4)] the division binds
    tighter than [??]. *)
Definition tiltWidth (data : GyroData) : float := normalize (beta data).

Definition rollWidth (data : GyroData) : float := normalize (gamma data).

Definition yawWidth (data : GyroData) : float :=
  normalize (Some (match alpha data with
                   | Some a => a
                   | None => (0 / 4)%float
                   end)).

End GyroVisualizer.

(* ================================================================== *)
(** ** [App.tsx]: the orientation listeners

    [initializeGyro] and the mount effect attach [handleOrientation] closures
    to [window] and keep in [gyroCleanupRef] the function that removes the
    last one attached. *)

Module Sensors.
Import App.

(** The static side of the global [DeviceOrientationEvent]:
    [requestPermission] is there on some platforms only, and the call
    resolves to a string or rejects. *)
Record OrientationAPI := { requestPermission : option (Completion string) }.

(** [isIOS] is read off the user agent; the global [DeviceOrientationEvent]
    is there or not. *)
Record Platform := {
  isIOS : bool;
  orientationAPI : option OrientationAPI
}.

(** [requestGyroPermission].  Where the global is missing, reading
    [DeviceOrientationEvent.requestPermission] throws inside the [try]. *)
Definition requestGyroPermission (p : Platform) : bool :=
  match orientationAPI p with
  | None => false
  | Some api =>
      match requestPermission api with
      | None => true
      | Some (Return permission) => String.eqb permission "granted"
      | Some (Throw _) => false
      end
  end.

(** Which way [initializeGyro] goes on a platform. *)
Definition gyroOutcome (p : Platform) : GyroOutcome :=
  if requestGyroPermission p then
    match orientationAPI p with
    | Some _ => Listening
    | None => NotSupported
    end
  else PermissionDenied.

(** The listeners attached to [window], each closure with its own number,
    and the closure [gyroCleanupRef.current] removes. *)
Record Registry := {
  listeners : list nat;
  gyroCleanupRef : option nat;
  fresh : nat
}.

Definition emptyRegistry : Registry :=
  {| listeners := []; gyroCleanupRef := None; fresh := 0 |}.

(** [if (gyroCleanupRef.current) { gyroCleanupRef.current();
    gyroCleanupRef.current = null; }] *)
Definition cleanup (r : Registry) : Registry :=
  match gyroCleanupRef r with
  | Some i => {| listeners := List.remove Nat.eq_dec i (listeners r);
                 gyroCleanupRef := None; fresh := fresh r |}
  | None => r
  end.

(** [addEventListener] with a new closure, and the reference to its
    removal. *)
Definition attach (r : Registry) : Registry :=
  {| listeners := (listeners r ++ [fresh r])%list;
     gyroCleanupRef := Some (fresh r);
     fresh := S (fresh r) |}.

Definition effectApplies (p : Platform) : bool :=
  negb (isIOS p) && match orientationAPI p with Some _ => true | None => false end.

(** The effect run on mount, and the clean-up it returns (none where the
    condition fails). *)
Definition mountEffect (p : Platform) (r : Registry) : Registry :=
  if effectApplies p then attach r else r.

Definition unmountEffect (p : Platform) (r : Registry) : Registry :=
  if effectApplies p then cleanup r else r.

(** [initializeGyro] up to the [await], and after it. *)
Definition initializeGyro_begin (r : Registry) : Registry := cleanup r.

Definition initializeGyro_end (p : Platform) (r : Registry) : Registry :=
  match gyroOutcome p with
  | Listening => attach r
  | _ => r
  end.

(** A whole run, nothing else happening in between. *)
Definition initializeGyro_run (p : Platform) (r : Registry) : Registry :=
  initializeGyro_end p (initializeGyro_begin r).

(** Mount followed by [n] runs of [initializeGyro], one after the other. *)
Definition setups (p : Platform) (n : nat) : Registry :=
  Nat.iter n (initializeGyro_run p) (mountEffect p emptyRegistry).

(** All that is attached is the one listener [gyroCleanupRef] removes. *)
Definition Tidy (r : Registry) : Prop :=
  listeners r = match gyroCleanupRef r with Some i => [i] | None => [] end.

End Sensors.

(* ================================================================== *)
(** ** What a call of the service carries *)

Module Calls.
Import App.

Fixpoint has_comma (s : string) : bool :=
  match s with
  | EmptyString => false
  | String c r => Ascii.eqb c comma || has_comma r
  end.

(** The three angles are numbers. *)
Definition numeric (g : GyroData) : Prop :=
  exists a b c, g = {| alpha := Some a; beta := Some b; gamma := Some c |}.

(** The image is a non-empty string without comma, the angles are numbers,
    the challenge is one of the catalog and does not ask to hold steady. *)
Definition CallOk (call : VerifyCall) : Prop :=
  arg_frame call <> EmptyString /\
  has_comma (arg_frame call) = false /\
  numeric (arg_gyro call) /\
  exists c, arg_challenge call = Some c /\ In c CHALLENGES /\
            expectedMovement c <> steady.

End Calls.

(* ================================================================== *)
(** ** [App.tsx]: what is rendered besides the buttons *)

Module View.
Import App.

(** [status !== IDLE && status !== SUCCESS && status !== FAILED]: the
    instruction widget. *)
Definition showsInstruction (s : AppState) : bool :=
  negb (LivenessStatus_eqb (status s) IDLE)
  && negb (LivenessStatus_eqb (status s) SUCCESS)
  && negb (LivenessStatus_eqb (status s) FAILED).

Definition initializing : string := "Initializing...".

(** [currentChallenge?.instruction || 'Initializing...'] *)
Definition instructionText (s : AppState) : string :=
  match currentChallenge s with
  | Some c =>
      match instruction c with
      | EmptyString => initializing
      | text => text
      end
  | None => initializing
  end.

(** [isCameraReady && !isGyroReady]: the notice that the motion sensors are
    not ready. *)
Definition showsSensorNotice (s : AppState) : bool :=
  isCameraReady s && negb (isGyroReady s).

(** How many of the set-up button, the start button, a reset button and the
    sensor notice are rendered. *)
Definition controls (s : AppState) : nat :=
  List.length (List.filter (fun b : bool => b)
                 [showsSetup s; showsStart s; showsReset s; showsSensorNotice s]).

End View.

(* ================================================================== *)
(** * Properties *)

Import GeminiLivenessService App Session.

(** ** Basic facts *)

Lemma jsstring_eqb_eq a b : jsstring_eqb a b = true <-> a = b.
Proof.
  unfold jsstring_eqb. destruct (list_eq_dec N.eq_dec a b); split; congruence.
Qed.

Lemma LivenessStatus_eqb_eq a b : LivenessStatus_eqb a b = true <-> a = b.
Proof. destruct a, b; simpl; split; congruence. Qed.

Lemma handleAll_reachable es : forall w w',
  reachable w -> handleAll es w = Some w' -> reachable w'.
Proof.
  induction es as [|e es IH]; simpl; intros w w' Hw Hrun.
  - injection Hrun as <-. exact Hw.
  - destruct (handle e w) as [w1|] eqn:He; [|discriminate].
    eapply IH; [|exact Hrun]. eapply reachable_step; eassumption.
Qed.

Lemma after_reachable es : reachable (after es).
Proof.
  unfold after. destruct (handleAll es initialWorld) as [w|] eqn:E.
  - eapply handleAll_reachable; [apply reachable_initial | exact E].
  - apply reachable_initial.
Qed.

Lemma handleAll_app es1 es2 w :
  handleAll (es1 ++ es2) w =
  match handleAll es1 w with
  | Some w1 => handleAll es2 w1
  | None => None
  end.
Proof.
  revert w. induction es1 as [|e es1 IH]; intros w; simpl; [reflexivity|].
  destruct (handle e w); [apply IH | reflexivity].
Qed.


(** [Math.floor(rnd * 4)] is an index of the catalog. *)
Lemma random_index rnd :
  is_random rnd = true ->
  (0 <= Qfloor (rnd * inject_Z 4) < 4)%Z.
Proof.
  unfold is_random. intros H. apply andb_true_iff in H as [H0 H1].
  apply Qle_bool_iff in H0.
  assert (H1' : (rnd < 1)%Q).
  { apply Qnot_le_lt. intros C. apply Qle_bool_iff in C. rewrite C in H1. discriminate. }
  split.
  - change 0%Z with (Qfloor (inject_Z 0)) at 1. apply Qfloor_resp_le.
    change (inject_Z 0) with (0 * inject_Z 4)%Q. apply Qmult_le_compat_r; [exact H0|]. discriminate.
  - assert (L : (inject_Z (Qfloor (rnd * inject_Z 4)) < inject_Z 4)%Q).
    { eapply Qle_lt_trans; [apply Qfloor_le|].
      change (inject_Z 4) with (1 * inject_Z 4)%Q at 2.
      apply Qmult_lt_compat_r; [reflexivity | exact H1']. }
    rewrite <- Zlt_Qlt in L. exact L.
Qed.

Lemma pickChallenge_catalogued rnd :
  is_random rnd = true -> catalogued (pickChallenge rnd).
Proof.
  intros H. apply random_index in H. unfold pickChallenge, catalogued.
  change (inject_Z (Z.of_nat (List.length CHALLENGES))) with (inject_Z 4).
  set (i := Qfloor (rnd * inject_Z 4)) in *.
  assert (C : (i = 0 \/ i = 1 \/ i = 2 \/ i = 3)%Z) by lia.
  destruct C as [-> | [-> | [-> | ->]]]; simpl;
    eexists; (split; [reflexivity | simpl; tauto]).
Qed.

(** ** The phase of the session is kept by every event *)

Lemma Phase_initial : Phase initialWorld.
Proof. apply AtRest; simpl; auto. Qed.

Lemma showsStart_idle s : showsStart s = true -> status s = IDLE.
Proof.
  unfold showsStart. intros H. apply andb_true_iff in H as [_ H].
  apply LivenessStatus_eqb_eq. exact H.
Qed.

Lemma showsStart_camera s : showsStart s = true -> isCameraReady s = true.
Proof.
  unfold showsStart. intros H. apply andb_true_iff in H as [H _].
  apply andb_true_iff in H as [H _]. exact H.
Qed.

Lemma showsReset_terminal s :
  showsReset s = true -> status s = SUCCESS \/ status s = FAILED.
Proof.
  unfold showsReset. intros H. apply orb_true_iff in H as [H|H];
    apply LivenessStatus_eqb_eq in H; auto.
Qed.

Lemma AttemptError_None : AttemptError None.
Proof. left. reflexivity. Qed.

(** The messages of set-up are not those of the session. *)
Lemma setup_message_not_session m :
  isSetupMessage m -> m <> capture_failed /\ m <> service_unavailable.
Proof.
  intros [[outcome H] | [outcome H]].
  - destruct outcome; simpl in H; try discriminate;
      injection H as <-; split; discriminate.
  - destruct outcome as [[|]|name message]; simpl in H; try discriminate.
    destruct (String.eqb name "NotAllowedError" || String.eqb name "PermissionDeniedError");
      [injection H as <-; split; discriminate|].
    destruct (String.eqb name "NotFoundError" || String.eqb name "DevicesNotFoundError");
      injection H as <-; split; discriminate.
Qed.

Lemma AttemptError_not_session e :
  AttemptError e -> e <> Some capture_failed /\ e <> Some service_unavailable.
Proof.
  intros [-> | (m & -> & H)]; [split; discriminate|].
  destruct (setup_message_not_session m H) as [A B].
  split; intros C; injection C as C; contradiction.
Qed.

(** A click finds no attempt under way. *)
Lemma Phase_rest_of_status w :
  Phase w ->
  status (app w) = IDLE \/ status (app w) = SUCCESS \/ status (app w) = FAILED ->
  timers w = [] /\ inflight w = [].
Proof.
  intros [due cb Ht Hi Hs _ _ _ _ _ | call Ht Hi Hs _ _ _ _ | Ht Hi _] H.
  - rewrite Hs in H. destruct H as [H|[H|H]]; discriminate.
  - rewrite Hs in H. destruct H as [H|[H|H]]; discriminate.
  - auto.
Qed.

(** As long as the camera is not ready no attempt has been started. *)
Lemma Phase_before_camera w :
  Phase w -> isCameraReady (app w) = false ->
  timers w = [] /\ inflight w = [] /\
  status (app w) = IDLE /\ result (app w) = None.
Proof.
  intros [due cb _ _ _ _ _ _ _ Hcam | call _ _ _ _ _ _ Hcam | Ht Hi H] Hf.
  - congruence.
  - congruence.
  - destruct H as [[Hs Hr] | (_ & _ & _ & Hcam)]; [auto | congruence].
Qed.

Lemma Phase_start w rnd :
  Phase w -> showsStart (app w) = true -> is_random rnd = true ->
  Phase (call_startVerification rnd w).
Proof.
  intros P Hs Hr. pose proof (showsStart_camera _ Hs) as Hcam.
  apply showsStart_idle in Hs.
  destruct (Phase_rest_of_status w P (or_introl Hs)) as [Ht Hi].
  apply Engaged with (due := (clock w + 4000)%Z)
                     (cb := {| closure_gyro := gyro (app w);
                               closure_challenge := pickChallenge rnd |});
    simpl; try rewrite Ht; try rewrite Hi; auto using AttemptError_None.
  apply pickChallenge_catalogued; exact Hr.
Qed.

Lemma Phase_reset w : Phase w -> showsReset (app w) = true -> Phase (call_reset w).
Proof.
  intros P Hs. apply showsReset_terminal in Hs.
  destruct (Phase_rest_of_status w P (or_intror Hs)) as [Ht Hi].
  apply AtRest; simpl; auto.
Qed.

Lemma Phase_fire w i dom w' : Phase w -> fire i dom w = Some w' -> Phase w'.
Proof.
  unfold fire.
  intros [due cb Ht Hi Hs Hr He Hc Hcur Hcam | call Ht Hi Hs _ _ _ _ | Ht Hi _] H;
    rewrite Ht in H.
  - destruct i as [|i]; simpl in H; [|destruct i; discriminate].
    destruct (due <=? clock w)%Z; [|discriminate].
    injection H as <-. unfold timerCallback.
    destruct (captureFrame dom) as [[|a f]|]; simpl.
    + apply AtRest; simpl; auto.
    + eapply Awaiting; simpl; try rewrite Hi; simpl; eauto.
    + apply AtRest; simpl; auto.
  - destruct i; discriminate.
  - destruct i; discriminate.
Qed.

Lemma Phase_settle w i remote w' : Phase w -> settle i remote w = Some w' -> Phase w'.
Proof.
  unfold settle.
  intros [due cb Ht Hi Hs Hr He Hc Hcur Hcam | call Ht Hi Hs Hr He Hc Hcam | Ht Hi _] H;
    rewrite Hi in H.
  - destruct i; discriminate.
  - destruct i as [|i]; simpl in H; [|destruct i; discriminate].
    injection H as <-.
    destruct (verifyLiveness remote (arg_frame call) (arg_gyro call) (arg_challenge call))
      as [x|e]; simpl.
    + destruct x; simpl; apply AtRest; simpl; auto;
        right; (split; [|split; [discriminate | split; [exact He | exact Hcam]]]);
        try match goal with |- context [if ?b then _ else _] => destruct b end;
        auto.
    + apply AtRest; simpl; auto.
  - destruct i; discriminate.
Qed.

(** The phase is kept by effects that touch neither the attempt's fields nor
    the queues. *)
Lemma Phase_ext w w' :
  Phase w ->
  timers w' = timers w -> inflight w' = inflight w ->
  status (app w') = status (app w) -> result (app w') = result (app w) ->
  error (app w') = error (app w) ->
  currentChallenge (app w') = currentChallenge (app w) ->
  isCameraReady (app w') = isCameraReady (app w) ->
  Phase w'.
Proof.
  intros [due cb Ht Hi Hs Hr He Hc Hcur Hcam | call Ht Hi Hs Hr He Hc Hcam | Ht Hi H]
         Et Ei Es Er Ee Ec Ecam.
  - apply Engaged with (due := due) (cb := cb); solve [congruence | assumption].
  - apply Awaiting with (call := call); solve [congruence | assumption].
  - apply AtRest; [congruence | congruence | rewrite Es, Er, Ee, Ecam; exact H].
Qed.

(** A failure of set-up writes its message, whatever the phase. *)
Lemma Phase_setError w m :
  Phase w -> isSetupMessage m ->
  Phase (performAll [SetState (SetError (Some m))] w).
Proof.
  intros [due cb Ht Hi Hs Hr He Hc Hcur Hcam | call Ht Hi Hs Hr He Hc Hcam | Ht Hi H] M;
    assert (A : AttemptError (Some m)) by (right; eauto).
  - apply Engaged with (due := due) (cb := cb); assumption.
  - apply Awaiting with (call := call); assumption.
  - apply AtRest; [assumption | assumption |]. simpl.
    destruct H as [H | (Hs & Hr & _ & Hcam)]; [left; exact H | right; auto].
Qed.

(** The camera becomes ready, whatever the phase. *)
Lemma Phase_cameraReady w :
  Phase w -> Phase (performAll [SetState (SetIsCameraReady true)] w).
Proof.
  intros [due cb Ht Hi Hs Hr He Hc Hcur Hcam | call Ht Hi Hs Hr He Hc Hcam | Ht Hi H].
  - apply Engaged with (due := due) (cb := cb); solve [assumption | reflexivity].
  - apply Awaiting with (call := call); solve [assumption | reflexivity].
  - apply AtRest; [assumption | assumption |]. simpl.
    destruct H as [H | (Hs & Hr & He & _)]; [left; exact H | right; auto].
Qed.

Lemma Phase_initializeGyro w outcome :
  Phase w -> Phase (performAll (initializeGyro outcome) w).
Proof.
  intros P. destruct outcome.
  - apply Phase_setError; [exact P | left; exists PermissionDenied; reflexivity].
  - apply Phase_setError; [exact P | left; exists NotSupported; reflexivity].
  - exact P.
Qed.

Lemma Phase_startCamera w outcome :
  Phase w -> Phase (performAll (startCamera outcome) w).
Proof.
  intros P. destruct outcome as [[|]|name message] eqn:E.
  - apply Phase_cameraReady. exact P.
  - exact P.
  - assert (S : exists m, startCamera (Rejected name message)
                          = [SetState (SetError (Some m))]).
    { simpl.
      destruct (String.eqb name "NotAllowedError" || String.eqb name "PermissionDeniedError");
        [eauto|].
      destruct (String.eqb name "NotFoundError" || String.eqb name "DevicesNotFoundError");
        eauto. }
    destruct S as [m S]. rewrite S.
    apply Phase_setError; [exact P | right; exists (Rejected name message); exact S].
Qed.

Lemma initializeGyro_effects outcome e :
  In e (initializeGyro outcome) ->
  exists u, e = SetState u /\
            ((exists m, u = SetError m) \/ (exists b, u = SetIsCameraReady b)).
Proof.
  destruct outcome; simpl; intros H; try contradiction;
    destruct H as [<-|[]]; eauto.
Qed.

Lemma startCamera_effects outcome e :
  In e (startCamera outcome) ->
  exists u, e = SetState u /\
            ((exists m, u = SetError m) \/ (exists b, u = SetIsCameraReady b)).
Proof.
  destruct outcome as [[|] | name message]; simpl.
  - intros [<-|[]]; eauto.
  - contradiction.
  - destruct (String.eqb name "NotAllowedError" || String.eqb name "PermissionDeniedError");
      [intros [<-|[]]; eauto|].
    destruct (String.eqb name "NotFoundError" || String.eqb name "DevicesNotFoundError");
      intros [<-|[]]; eauto.
Qed.

Lemma Phase_step w e w' : Phase w -> handle e w = Some w' -> Phase w'.
Proof.
  intros P H.
  destruct e as [rnd| |d|i dom|i remote|event|outcome|outcome]; simpl in H.
  - destruct (showsStart (app w)) eqn:Hs; [|discriminate].
    destruct (is_random rnd) eqn:Hr; [|discriminate].
    injection H as <-. apply Phase_start; assumption.
  - destruct (showsReset (app w)) eqn:Hs; [|discriminate].
    injection H as <-. apply Phase_reset; assumption.
  - destruct (0 <=? d)%Z; [|discriminate]. injection H as <-.
    eapply Phase_ext; eauto.
  - eapply Phase_fire; eassumption.
  - eapply Phase_settle; eassumption.
  - injection H as <-. eapply Phase_ext; eauto.
  - injection H as <-. apply Phase_initializeGyro. exact P.
  - injection H as <-. apply Phase_startCamera. exact P.
Qed.

Lemma reachable_Phase w : reachable w -> Phase w.
Proof.
  induction 1 as [|w e w' _ IH H].
  - apply Phase_initial.
  - eapply Phase_step; eassumption.
Qed.

(** Effects that do not write [gyro] or [isGyroReady] keep the sensor
    invariant. *)
Lemma SensorInv_ext s s' :
  SensorInv s -> gyro s' = gyro s -> isGyroReady s' = isGyroReady s ->
  SensorInv s'.
Proof.
  intros [H1 H2] Eg Er. split; rewrite Eg; [exact H1 | rewrite Er; exact H2].
Qed.

Lemma setup_keeps_sensor es : forall w,
  (forall e, In e es ->
             exists u, e = SetState u /\
                       ((exists m, u = SetError m) \/
                        (exists b, u = SetIsCameraReady b))) ->
  gyro (app (performAll es w)) = gyro (app w) /\
  isGyroReady (app (performAll es w)) = isGyroReady (app w).
Proof.
  induction es as [|e es IH]; intros w Hes.
  - simpl. auto.
  - unfold performAll. simpl.
    destruct (IH (perform w e) (fun e' He' => Hes e' (or_intror He'))) as [Eg Er].
    unfold performAll in Eg, Er. rewrite Eg, Er.
    destruct (Hes e (or_introl eq_refl)) as (u & -> & [[m ->] | [b ->]]); auto.
Qed.

Lemma SensorInv_step w e w' :
  SensorInv (app w) -> handle e w = Some w' -> SensorInv (app w').
Proof.
  intros I H.
  destruct e as [rnd| |d|i dom|i remote|event|outcome|outcome]; simpl in H.
  - destruct (showsStart (app w) && is_random rnd); [|discriminate].
    injection H as <-. exact I.
  - destruct (showsReset (app w)); [|discriminate]. injection H as <-. exact I.
  - destruct (0 <=? d)%Z; [|discriminate]. injection H as <-. exact I.
  - unfold fire in H. destruct (nth_error (timers w) i) as [[due cb]|]; [|discriminate].
    destruct (due <=? clock w)%Z; [|discriminate]. injection H as <-.
    unfold timerCallback. destruct (captureFrame dom) as [[|a f]|]; exact I.
  - unfold settle in H. destruct (nth_error (inflight w) i) as [call|]; [|discriminate].
    injection H as <-.
    destruct (verifyLiveness remote (arg_frame call) (arg_gyro call) (arg_challenge call))
      as [x|err]; simpl; [|exact I].
    destruct (get_isLive x); exact I.
  - injection H as <-. split; simpl; [eauto | discriminate].
  - injection H as <-.
    destruct (setup_keeps_sensor (initializeGyro outcome) w
                (initializeGyro_effects outcome)) as [Eg Er].
    eapply SensorInv_ext; eassumption.
  - injection H as <-.
    destruct (setup_keeps_sensor (startCamera outcome) w
                (startCamera_effects outcome)) as [Eg Er].
    eapply SensorInv_ext; eassumption.
Qed.

Lemma reachable_SensorInv w : reachable w -> SensorInv (app w).
Proof.
  induction 1 as [|w e w' _ IH H].
  - split; simpl; eauto.
  - eapply SensorInv_step; eassumption.
Qed.

(** Until the camera is ready the session rests in [IDLE] and the set-up
    button is rendered. *)
Lemma setup_button_until_camera w :
  reachable w -> isCameraReady (app w) = false ->
  showsSetup (app w) = true /\ showsStart (app w) = false /\
  timers w = [] /\ inflight w = [].
Proof.
  intros R Hf.
  destruct (Phase_before_camera w (reachable_Phase w R) Hf) as (Ht & Hi & Hs & _).
  unfold showsSetup, showsStart. rewrite Hs, Hf. auto.
Qed.

(** ** Steps of set-up *)

(** A step of set-up writes only [error] and [isCameraReady]. *)
Lemma setup_frame es : forall w,
  (forall e, In e es ->
             exists u, e = SetState u /\
                       ((exists m, u = SetError m) \/
                        (exists b, u = SetIsCameraReady b))) ->
  timers (performAll es w) = timers w /\
  inflight (performAll es w) = inflight w /\
  verifyCalls (performAll es w) = verifyCalls w /\
  status (app (performAll es w)) = status (app w) /\
  result (app (performAll es w)) = result (app w) /\
  currentChallenge (app (performAll es w)) = currentChallenge (app w) /\
  isGyroReady (app (performAll es w)) = isGyroReady (app w).
Proof.
  induction es as [|e es IH]; intros w Hes.
  - simpl. auto 10.
  - unfold performAll. simpl.
    destruct (IH (perform w e) (fun e' He' => Hes e' (or_intror He')))
      as (E1 & E2 & E3 & E4 & E5 & E6 & E7).
    unfold performAll in *. rewrite E1, E2, E3, E4, E5, E6, E7.
    destruct (Hes e (or_introl eq_refl)) as (u & -> & [[m ->] | [b ->]]);
      simpl; auto 10.
Qed.

(** A step of set-up never makes the camera not ready. *)
Lemma setup_keeps_camera es : forall w,
  (forall e, In e es ->
             e = SetState (SetIsCameraReady true) \/
             exists m, e = SetState (SetError m)) ->
  isCameraReady (app w) = true ->
  isCameraReady (app (performAll es w)) = true.
Proof.
  induction es as [|e es IH]; intros w Hes Hc.
  - exact Hc.
  - unfold performAll. simpl. apply IH.
    + intros e' He'. apply Hes. right. exact He'.
    + destruct (Hes e (or_introl eq_refl)) as [-> | [m ->]]; [reflexivity | exact Hc].
Qed.

Lemma initializeGyro_writes outcome e :
  In e (initializeGyro outcome) ->
  e = SetState (SetIsCameraReady true) \/ exists m, e = SetState (SetError m).
Proof.
  destruct outcome; simpl; intros H; try contradiction;
    destruct H as [<-|[]]; eauto.
Qed.

Lemma startCamera_writes outcome e :
  In e (startCamera outcome) ->
  e = SetState (SetIsCameraReady true) \/ exists m, e = SetState (SetError m).
Proof.
  destruct outcome as [[|] | name message]; simpl.
  - intros [<-|[]]; auto.
  - contradiction.
  - destruct (String.eqb name "NotAllowedError" || String.eqb name "PermissionDeniedError");
      [intros [<-|[]]; eauto|].
    destruct (String.eqb name "NotFoundError" || String.eqb name "DevicesNotFoundError");
      intros [<-|[]]; eauto.
Qed.

(** What a step of set-up keeps. *)
Lemma setup_step w e w' :
  handle e w = Some w' ->
  (exists o, e = GyroInitialized o) \/ (exists o, e = CameraSettled o) ->
  timers w' = timers w /\ inflight w' = inflight w /\
  verifyCalls w' = verifyCalls w /\
  status (app w') = status (app w) /\
  result (app w') = result (app w) /\
  currentChallenge (app w') = currentChallenge (app w) /\
  isGyroReady (app w') = isGyroReady (app w) /\
  (isCameraReady (app w) = true -> isCameraReady (app w') = true).
Proof.
  intros H [[o ->] | [o ->]]; simpl in H; injection H as <-.
  - destruct (setup_frame (initializeGyro o) w (initializeGyro_effects o))
      as (E1 & E2 & E3 & E4 & E5 & E6 & E7).
    repeat split; auto.
    apply setup_keeps_camera. apply initializeGyro_writes.
  - destruct (setup_frame (startCamera o) w (startCamera_effects o))
      as (E1 & E2 & E3 & E4 & E5 & E6 & E7).
    repeat split; auto.
    apply setup_keeps_camera. apply startCamera_writes.
Qed.

(** What a step of set-up does to the error: nothing, or one of the messages
    of set-up. *)
Lemma setup_error w e w' :
  handle e w = Some w' ->
  (exists o, e = GyroInitialized o) \/ (exists o, e = CameraSettled o) ->
  error (app w') = error (app w) \/
  exists m, error (app w') = Some m /\ isSetupMessage m.
Proof.
  intros H [[o ->] | [o ->]]; simpl in H; injection H as <-.
  - destruct o.
    + right. eexists. split; [reflexivity|]. left. exists PermissionDenied. reflexivity.
    + right. eexists. split; [reflexivity|]. left. exists NotSupported. reflexivity.
    + left. reflexivity.
  - destruct o as [[|]|name message].
    + left. reflexivity.
    + left. reflexivity.
    + assert (S : exists m, startCamera (Rejected name message)
                            = [SetState (SetError (Some m))]).
      { simpl.
        destruct (String.eqb name "NotAllowedError" || String.eqb name "PermissionDeniedError");
          [eauto|].
        destruct (String.eqb name "NotFoundError" || String.eqb name "DevicesNotFoundError");
          eauto. }
      destruct S as [m S]. rewrite S. right. exists m.
      split; [reflexivity|]. right. exists (Rejected name message). exact S.
Qed.

(** ** The attempt *)

(** A call is in flight only while the session waits for the service. *)
Lemma inflight_awaiting w i call :
  reachable w -> nth_error (inflight w) i = Some call ->
  i = 0%nat /\ timers w = [] /\ inflight w = [call] /\
  status (app w) = VERIFYING /\
  result (app w) = None /\ AttemptError (error (app w)) /\
  catalogued (arg_challenge call).
Proof.
  intros R H. destruct (reachable_Phase w R)
    as [due cb Ht Hi Hs Hr He Hc Hcur | c Ht Hi Hs Hr He Hc | Ht Hi _];
    rewrite Hi in H.
  - destruct i; discriminate.
  - destruct i as [|i]; simpl in H; [|destruct i; discriminate].
    injection H as <-. auto 10.
  - destruct i; discriminate.
Qed.

Lemma as_verdict_isLive x v :
  as_verdict x = Some v ->
  x <> JNull /\ get_isLive x = Return (Some (JBool (isLive v))).
Proof.
  destruct x as [| | | | |ms]; simpl; try discriminate.
  destruct (lookup (lit "isLive") ms) as [[|b| | | |]|]; try discriminate.
  destruct (lookup (lit "confidence") ms) as [[| |c| | |]|]; try discriminate.
  destruct (lookup (lit "reasoning") ms) as [[| | |r| |]|]; try discriminate.
  intros H. injection H as <-. split; [discriminate | reflexivity].
Qed.

(** When the due timer runs and [captureFrame] returns a frame, the status
    becomes [VERIFYING] and [verifyLiveness] is called once, with that frame,
    the [gyro] the handler closed over and the picked challenge. *)
Lemma capture_success_calls w i due cb dom a f :
  reachable w ->
  nth_error (timers w) i = Some (due, cb) ->
  (due <= clock w)%Z ->
  captureFrame dom = Some (String a f) ->
  exists w', handle (TimerFires i dom) w = Some w' /\
             status (app w') = VERIFYING /\
             inflight w' = [ {| arg_frame := String a f;
                                arg_gyro := closure_gyro cb;
                                arg_challenge := closure_challenge cb |} ] /\
             verifyCalls w' = (verifyCalls w ++ inflight w')%list /\
             timers w' = [].
Proof.
  intros R Hn Hd Hc.
  destruct (reachable_Phase w R)
    as [due' cb' Ht Hi Hs Hr He Hcat Hcur | c Ht Hi Hs Hr He Hcat | Ht Hi _];
    rewrite Ht in Hn; try (destruct i; discriminate).
  destruct i as [|i]; simpl in Hn; [|destruct i; discriminate].
  injection Hn as -> ->.
  simpl. unfold fire. rewrite Ht. simpl.
  apply Z.leb_le in Hd. rewrite Hd.
  eexists. split; [reflexivity|].
  unfold timerCallback. rewrite Hc. simpl. rewrite Hi. auto.
Qed.

(** C1, as stated: it is not the case that after every settlement with a
    verdict [error] is [null].  The set-up button was clicked twice before
    the camera was ready; the first set-up succeeds, an attempt is started
    and its frame captured, the camera request of the second set-up is then
    rejected, and the service answers with a positive verdict: the status is
    [SUCCESS], the verdict is stored and the camera error is set. *)
Lemma verdict_with_error_set :
  ~ (forall w i call remote x v w',
        reachable w ->
        nth_error (inflight w) i = Some call ->
        verifyLiveness remote (arg_frame call) (arg_gyro call) (arg_challenge call)
          = Return x ->
        as_verdict x = Some v ->
        handle (Settles i remote) w = Some w' ->
        error (app w') = None).
Proof.
  intros H.
  pose (w := after overlappingSetup).
  destruct (handle (Settles 0 (answering (Some liveBody))) w) as [w'|] eqn:E.
  - assert (R : reachable w) by apply after_reachable.
    specialize (H w 0%nat
                  {| arg_frame := "/9j/4AAQSkZJRg";
                     arg_gyro := {| alpha := Some 10%float; beta := Some 0%float;
                                    gamma := Some 3%float |};
                     arg_challenge := nth_error CHALLENGES 2 |}
                  (answering (Some liveBody)) (js_of_verdict liveVerdict)
                  liveVerdict w' R).
    assert (A : error (app w') = None).
    { apply H; [vm_compute; reflexivity | vm_compute; reflexivity
                | reflexivity | exact E]. }
    revert A. vm_compute in E. injection E as <-. vm_compute. discriminate.
  - vm_compute in E. discriminate.
Qed.

(** C1, amended.  When the awaited call of an attempt returns a value that
    is a verdict (an object with a boolean [isLive], a number [confidence]
    and a string [reasoning]), settling it stores exactly that value in
    [result] and sets the status to [SUCCESS] if [isLive] is true and to
    [FAILED] if it is false.  The settlement does not write [error]: it is
    left as it was, which is [null] or a message of camera or sensor set-up,
    never the capture or the connectivity message of the session.  A call is
    in flight only after the timer callback has captured a frame. *)
Theorem verdict_stored w i call remote x v :
  reachable w ->
  nth_error (inflight w) i = Some call ->
  verifyLiveness remote (arg_frame call) (arg_gyro call) (arg_challenge call)
    = Return x ->
  as_verdict x = Some v ->
  exists w', handle (Settles i remote) w = Some w' /\
             result (app w') = Some x /\
             status (app w') = (if isLive v then SUCCESS else FAILED) /\
             error (app w') = error (app w) /\
             (error (app w') = None \/
              exists m, error (app w') = Some m /\ isSetupMessage m) /\
             error (app w') <> Some capture_failed /\
             error (app w') <> Some service_unavailable.
Proof.
  intros R Hn Hv Hx.
  destruct (inflight_awaiting w i call R Hn) as (-> & Ht & Hi & Hs & Hr & He & Hc).
  destruct (as_verdict_isLive x v Hx) as [Hnn Hl].
  destruct (AttemptError_not_session _ He) as [N1 N2].
  simpl. unfold settle. rewrite Hn, Hv. eexists. split; [reflexivity|].
  unfold afterVerify. rewrite Hl. simpl.
  repeat split; auto. destruct x; try reflexivity. contradiction.
Qed.

Lemma verdict_stored_witness :
  exists w', handle (Settles 0 (answering (Some liveBody))) (after untilCall) = Some w' /\
             result (app w') = Some (js_of_verdict liveVerdict) /\
             status (app w') = SUCCESS /\
             error (app w') = error (app (after untilCall)) /\
             (error (app w') = None \/
              exists m, error (app w') = Some m /\ isSetupMessage m) /\
             error (app w') <> Some capture_failed /\
             error (app w') <> Some service_unavailable.
Proof.
  apply (verdict_stored (after untilCall) 0%nat
           {| arg_frame := "/9j/4AAQSkZJRg";
              arg_gyro := {| alpha := Some 10%float; beta := Some 0%float; gamma := Some 3%float |};
              arg_challenge := nth_error CHALLENGES 2 |}
           (answering (Some liveBody)) (js_of_verdict liveVerdict) liveVerdict).
  - apply after_reachable.
  - vm_compute. reflexivity.
  - vm_compute. reflexivity.
  - reflexivity.
Defined.

(** A timer is registered only while the session waits for it. *)
Lemma timer_engaged w i due cb :
  reachable w -> nth_error (timers w) i = Some (due, cb) ->
  i = 0%nat /\ timers w = [(due, cb)] /\ inflight w = [] /\
  status (app w) = CHALLENGE_REQUESTED /\
  result (app w) = None /\ AttemptError (error (app w)) /\
  catalogued (closure_challenge cb).
Proof.
  intros R H. destruct (reachable_Phase w R)
    as [due' cb' Ht Hi Hs Hr He Hc Hcur | c Ht Hi Hs Hr He Hc | Ht Hi _];
    rewrite Ht in H.
  - destruct i as [|i]; simpl in H; [|destruct i; discriminate].
    injection H as <- <-. auto 10.
  - destruct i; discriminate.
  - destruct i; discriminate.
Qed.

(** C4.  When the timer of an attempt runs and [captureFrame] returns no
    image ([null], or the empty string of a video that has no pixels yet:
    the cases of [!frame]), the status becomes [IDLE], [error] is set, no
    verdict is stored, and [verifyLiveness] is not called: no call is added
    to those made so far and none is in flight. *)
Theorem capture_failure_short_circuit w i due cb dom :
  reachable w ->
  nth_error (timers w) i = Some (due, cb) ->
  (due <= clock w)%Z ->
  captureFrame dom = None \/ captureFrame dom = Some EmptyString ->
  exists w', handle (TimerFires i dom) w = Some w' /\
             status (app w') = IDLE /\
             error (app w') = Some capture_failed /\
             result (app w') = None /\
             verifyCalls w' = verifyCalls w /\
             inflight w' = [].
Proof.
  intros R Hn Hd Hc.
  destruct (timer_engaged w i due cb R Hn) as (-> & Ht & Hi & Hs & Hr & He & _).
  simpl. unfold fire. rewrite Hn.
  apply Z.leb_le in Hd. rewrite Hd.
  eexists. split; [reflexivity|].
  unfold timerCallback. destruct Hc as [-> | ->]; simpl; auto 10.
Qed.

Lemma capture_failure_short_circuit_witness :
  exists w', handle (TimerFires 0 blankCamera) (after untilTimer) = Some w' /\
             status (app w') = IDLE /\
             error (app w') = Some capture_failed /\
             result (app w') = None /\
             verifyCalls w' = verifyCalls (after untilTimer) /\
             inflight w' = [].
Proof.
  apply (capture_failure_short_circuit (after untilTimer) 0%nat 4000%Z
           {| closure_gyro := {| alpha := Some 10%float; beta := Some 0%float;
                                 gamma := Some 3%float |};
              closure_challenge := nth_error CHALLENGES 2 |}
           blankCamera).
  - apply after_reachable.
  - vm_compute. reflexivity.
  - vm_compute. discriminate.
  - right. reflexivity.
Defined.

(** The same with both references unset, as before the video is mounted. *)
Example capture_fails_without_video :
  exists w', handle (TimerFires 0 noCamera) (after untilTimer) = Some w' /\
             status (app w') = IDLE /\
             error (app w') = Some capture_failed /\
             verifyCalls w' = [].
Proof. eexists. split; [vm_compute; reflexivity|]. vm_compute. auto. Qed.

(** C5.  When the awaited call of an attempt throws, the status becomes
    [IDLE] (not [FAILED]), [error] is the connectivity message and no verdict
    is stored. *)
Theorem remote_failure_idle w i call remote e :
  reachable w ->
  nth_error (inflight w) i = Some call ->
  verifyLiveness remote (arg_frame call) (arg_gyro call) (arg_challenge call)
    = Throw e ->
  exists w', handle (Settles i remote) w = Some w' /\
             status (app w') = IDLE /\
             error (app w') = Some service_unavailable /\
             result (app w') = None.
Proof.
  intros R Hn Hv.
  destruct (inflight_awaiting w i call R Hn) as (-> & Ht & Hi & Hs & Hr & He & Hc).
  simpl. unfold settle. rewrite Hn, Hv. eexists. split; [reflexivity|].
  simpl. auto.
Qed.

Lemma remote_failure_idle_witness :
  exists w', handle (Settles 0 unreachable) (after untilCall) = Some w' /\
             status (app w') = IDLE /\
             error (app w') = Some service_unavailable /\
             result (app w') = None.
Proof.
  apply (remote_failure_idle (after untilCall) 0%nat
           {| arg_frame := "/9j/4AAQSkZJRg";
              arg_gyro := {| alpha := Some 10%float; beta := Some 0%float;
                             gamma := Some 3%float |};
              arg_challenge := nth_error CHALLENGES 2 |}
           unreachable (RemoteError (lit "fetch failed"))).
  - apply after_reachable.
  - vm_compute. reflexivity.
  - reflexivity.
Defined.

(** The two bodies of the worked runs parse to their verdicts. *)
Example parse_liveBody : JSON.parse liveBody = Return (js_of_verdict liveVerdict).
Proof. vm_compute. reflexivity. Qed.

Example parse_spoofBody : JSON.parse spoofBody = Return (js_of_verdict spoofVerdict).
Proof. vm_compute. reflexivity. Qed.

(** A whole attempt with a camera that delivers a frame and a service that
    answers with a positive verdict ends in [SUCCESS] with that verdict. *)
Example attempt_succeeds :
  handleAll (untilCall ++ [Settles 0 (answering (Some liveBody))])%list initialWorld
    <> None /\
  status (app (after (untilCall ++ [Settles 0 (answering (Some liveBody))])))
    = SUCCESS /\
  result (app (after (untilCall ++ [Settles 0 (answering (Some liveBody))])))
    = Some (js_of_verdict liveVerdict) /\
  error (app (after (untilCall ++ [Settles 0 (answering (Some liveBody))])))
    = None.
Proof. vm_compute. repeat split; discriminate. Qed.

(** With a negative verdict it ends in [FAILED], the verdict stored and no
    error set. *)
Example attempt_rejects_spoof :
  handleAll (untilCall ++ [Settles 0 (answering (Some spoofBody))])%list initialWorld
    <> None /\
  status (app (after (untilCall ++ [Settles 0 (answering (Some spoofBody))])))
    = FAILED /\
  result (app (after (untilCall ++ [Settles 0 (answering (Some spoofBody))])))
    = Some (js_of_verdict spoofVerdict) /\
  error (app (after (untilCall ++ [Settles 0 (answering (Some spoofBody))])))
    = None.
Proof. vm_compute. repeat split; discriminate. Qed.

(** ** Invariants of the session *)

(** While the capture or the connectivity message is the current error the
    session rests in [IDLE] with no verdict. *)
Lemma session_error_idle w :
  reachable w ->
  error (app w) = Some capture_failed \/
  error (app w) = Some service_unavailable ->
  status (app w) = IDLE /\ result (app w) = None.
Proof.
  intros R E.
  destruct (reachable_Phase w R)
    as [due cb Ht Hi Hs Hr He Hc Hcur Hcam | c Ht Hi Hs Hr He Hc Hcam | Ht Hi H].
  - destruct (AttemptError_not_session _ He) as [N1 N2].
    destruct E; contradiction.
  - destruct (AttemptError_not_session _ He) as [N1 N2].
    destruct E; contradiction.
  - destruct H as [[Hs Hr] | (_ & _ & He & _)]; [auto|].
    destruct (AttemptError_not_session _ He) as [N1 N2].
    destruct E; contradiction.
Qed.

(** C6, as stated: it is not the case that in every reachable world with
    status [SUCCESS] or [FAILED] the error is [null].  In the run with two
    overlapping set-ups the attempt ends in [SUCCESS] with its verdict
    stored while the camera error of the second set-up is set. *)
Lemma verdict_and_error_together :
  ~ (forall w, reachable w ->
               (status (app w) = SUCCESS \/ status (app w) = FAILED ->
                result (app w) <> None /\ error (app w) = None) /\
               (error (app w) <> None -> result (app w) = None)).
Proof.
  intros H.
  destruct (H (after (overlappingSetup ++ [Settles 0 (answering (Some liveBody))]))
              (after_reachable _)) as [A _].
  assert (S : status (app (after (overlappingSetup
                                  ++ [Settles 0 (answering (Some liveBody))])))
              = SUCCESS) by (vm_compute; reflexivity).
  destruct (A (or_introl S)) as [_ E]. vm_compute in E. discriminate.
Qed.

(** C6, amended.  In every reachable world whose status is [SUCCESS] or
    [FAILED] a verdict is stored and [error] is [null] or a message of
    camera or sensor set-up (which can fail at any time); and in every
    reachable world whose error is the capture or the connectivity message,
    the two errors of the session, the status is [IDLE] and no verdict is
    stored.  So a verdict and an error of the session are never present
    together. *)
Theorem verdict_error_exclusive w :
  reachable w ->
  (status (app w) = SUCCESS \/ status (app w) = FAILED ->
   result (app w) <> None /\
   (error (app w) = None \/
    exists m, error (app w) = Some m /\ isSetupMessage m) /\
   error (app w) <> Some capture_failed /\
   error (app w) <> Some service_unavailable) /\
  (error (app w) = Some capture_failed \/
   error (app w) = Some service_unavailable ->
   status (app w) = IDLE /\ result (app w) = None).
Proof.
  intros R. split; [|apply session_error_idle; exact R].
  intros S.
  destruct (reachable_Phase w R)
    as [due cb Ht Hi Hs Hr He Hc Hcur Hcam | c Ht Hi Hs Hr He Hc Hcam | Ht Hi H].
  - rewrite Hs in S. destruct S; discriminate.
  - rewrite Hs in S. destruct S; discriminate.
  - destruct H as [[Hs Hr] | (Hs & Hr & He & _)].
    + rewrite Hs in S. destruct S; discriminate.
    + destruct (AttemptError_not_session _ He) as [N1 N2]. auto.
Qed.

Lemma verdict_error_exclusive_witness :
  (status (app (after (untilCall ++ [Settles 0 (answering (Some spoofBody))]))) = SUCCESS \/
   status (app (after (untilCall ++ [Settles 0 (answering (Some spoofBody))]))) = FAILED ->
   result (app (after (untilCall ++ [Settles 0 (answering (Some spoofBody))]))) <> None /\
   (error (app (after (untilCall ++ [Settles 0 (answering (Some spoofBody))]))) = None \/
    exists m,
      error (app (after (untilCall ++ [Settles 0 (answering (Some spoofBody))])))
        = Some m /\ isSetupMessage m) /\
   error (app (after (untilCall ++ [Settles 0 (answering (Some spoofBody))])))
     <> Some capture_failed /\
   error (app (after (untilCall ++ [Settles 0 (answering (Some spoofBody))])))
     <> Some service_unavailable) /\
  (error (app (after (untilCall ++ [Settles 0 (answering (Some spoofBody))])))
     = Some capture_failed \/
   error (app (after (untilCall ++ [Settles 0 (answering (Some spoofBody))])))
     = Some service_unavailable ->
   status (app (after (untilCall ++ [Settles 0 (answering (Some spoofBody))]))) = IDLE /\
   result (app (after (untilCall ++ [Settles 0 (answering (Some spoofBody))]))) = None).
Proof.
  apply (verdict_error_exclusive
           (after (untilCall ++ [Settles 0 (answering (Some spoofBody))]))).
  apply after_reachable.
Defined.

(** C10.  The status of a reachable world is one of [IDLE], [INITIALIZING],
    [CHALLENGE_REQUESTED], [VERIFYING], [SUCCESS] and [FAILED]; it is never
    [RECORDING]. *)
Theorem never_recording w :
  reachable w ->
  (status (app w) = IDLE \/ status (app w) = INITIALIZING \/
   status (app w) = CHALLENGE_REQUESTED \/ status (app w) = VERIFYING \/
   status (app w) = SUCCESS \/ status (app w) = FAILED) /\
  status (app w) <> RECORDING.
Proof.
  intros R.
  assert (H : status (app w) = IDLE \/ status (app w) = INITIALIZING \/
              status (app w) = CHALLENGE_REQUESTED \/ status (app w) = VERIFYING \/
              status (app w) = SUCCESS \/ status (app w) = FAILED).
  { destruct (reachable_Phase w R)
      as [due cb Ht Hi Hs Hr He Hc Hcur | c Ht Hi Hs Hr He Hc | Ht Hi H].
    - tauto.
    - tauto.
    - destruct H as [[Hs _] | ([Hs|Hs] & _)]; tauto. }
  split; [exact H|].
  intros C. rewrite C in H. repeat (destruct H as [H|H]; [discriminate|]).
  discriminate.
Qed.

Lemma never_recording_witness :
  (status (app (after untilCall)) = IDLE \/
   status (app (after untilCall)) = INITIALIZING \/
   status (app (after untilCall)) = CHALLENGE_REQUESTED \/
   status (app (after untilCall)) = VERIFYING \/
   status (app (after untilCall)) = SUCCESS \/
   status (app (after untilCall)) = FAILED) /\
  status (app (after untilCall)) <> RECORDING.
Proof.
  apply (never_recording (after untilCall)). apply after_reachable.
Defined.

(** No handler writes [RECORDING]. *)
Lemma no_handler_writes_recording :
  (forall s rnd, ~ In RECORDING (statusWrites (startVerification s rnd))) /\
  (forall cb dom, ~ In RECORDING (statusWrites (timerCallback cb dom))) /\
  (forall settled, ~ In RECORDING (statusWrites (afterVerify settled))) /\
  ~ In RECORDING (statusWrites reset) /\
  (forall event, ~ In RECORDING (statusWrites (handleOrientation event))).
Proof.
  repeat split.
  - intros s rnd [H|[H|[]]]; discriminate.
  - intros cb dom. unfold timerCallback.
    destruct (captureFrame dom) as [[|a f]|]; simpl;
      intuition discriminate.
  - intros [x|e]; simpl; [|intuition discriminate].
    destruct (get_isLive x) as [b|e]; simpl; [|intuition discriminate].
    destruct (truthy b); intuition discriminate.
  - simpl. intuition discriminate.
  - intros event. simpl. tauto.
Qed.

(** ** [reset] and [startVerification] *)

(** C7.  Whatever the world, after [reset] the status is [IDLE] and the
    active challenge, the verdict and the error are all [null]. *)
Theorem reset_clears w :
  status (app (call_reset w)) = IDLE /\
  currentChallenge (app (call_reset w)) = None /\
  result (app (call_reset w)) = None /\
  error (app (call_reset w)) = None.
Proof. repeat split. Qed.

(** The button, where it is rendered, does the same. *)
Lemma click_reset w :
  showsReset (app w) = true -> handle ClickReset w = Some (call_reset w).
Proof. intros H. simpl. rewrite H. reflexivity. Qed.

(** [reset] leaves the registered timers and the calls in flight as they
    are. *)
Lemma reset_keeps_pending w :
  timers (call_reset w) = timers w /\ inflight (call_reset w) = inflight w.
Proof. split; reflexivity. Qed.

(** C8.  A call of [startVerification] in status [IDLE], with [rnd] a value
    of [Math.random()], clears verdict and error, writes the statuses
    [INITIALIZING] and [CHALLENGE_REQUESTED] in that order and ends in
    [CHALLENGE_REQUESTED], records exactly one challenge, and that challenge
    is an element of [CHALLENGES] (its id is one of the catalog's ids). *)
Theorem start_issues_one_challenge w rnd :
  status (app w) = IDLE ->
  is_random rnd = true ->
  result (app (call_startVerification rnd w)) = None /\
  error (app (call_startVerification rnd w)) = None /\
  statusWrites (startVerification (app w) rnd)
    = [INITIALIZING; CHALLENGE_REQUESTED] /\
  status (app (call_startVerification rnd w)) = CHALLENGE_REQUESTED /\
  exists c,
    challengeWrites (startVerification (app w) rnd) = [Some c] /\
    currentChallenge (app (call_startVerification rnd w)) = Some c /\
    In c CHALLENGES /\
    In (id c) (List.map id CHALLENGES).
Proof.
  intros _ Hr. repeat (split; [reflexivity|]).
  destruct (pickChallenge_catalogued rnd Hr) as (c & Hc & Hin).
  exists c.
  split; [simpl; rewrite Hc; reflexivity|].
  split; [simpl; rewrite Hc; reflexivity|].
  split; [exact Hin | apply in_map; exact Hin].
Qed.

Lemma start_issues_one_challenge_witness :
  result (app (call_startVerification (3 # 4) initialWorld)) = None /\
  error (app (call_startVerification (3 # 4) initialWorld)) = None /\
  statusWrites (startVerification (app initialWorld) (3 # 4))
    = [INITIALIZING; CHALLENGE_REQUESTED] /\
  status (app (call_startVerification (3 # 4) initialWorld)) = CHALLENGE_REQUESTED /\
  exists c,
    challengeWrites (startVerification (app initialWorld) (3 # 4)) = [Some c] /\
    currentChallenge (app (call_startVerification (3 # 4) initialWorld)) = Some c /\
    In c CHALLENGES /\
    In (id c) (List.map id CHALLENGES).
Proof.
  apply (start_issues_one_challenge initialWorld (3 # 4)); reflexivity.
Defined.

(** The button, where it is rendered, calls the handler in status [IDLE]. *)
Lemma click_start w rnd :
  showsStart (app w) = true -> is_random rnd = true ->
  handle (ClickStart rnd) w = Some (call_startVerification rnd w) /\
  status (app w) = IDLE.
Proof.
  intros Hs Hr. simpl. rewrite Hs, Hr. split; [reflexivity|].
  apply showsStart_idle; exact Hs.
Qed.

(** The ids of the catalog are pairwise different. *)
Lemma catalog_ids_distinct : NoDup (List.map id CHALLENGES).
Proof.
  simpl. repeat constructor; simpl; intuition discriminate.
Qed.

(** ** The sensor sample *)

(** C9, as stated, at the initial state: the three angles are not absent. *)
Lemma sensor_sample_initially_present :
  ~ (alpha (gyro (app initialWorld)) = None /\
     beta (gyro (app initialWorld)) = None /\
     gamma (gyro (app initialWorld)) = None).
Proof. simpl. intros (H & _). discriminate. Qed.

(** C9, amended.  In every reachable world each angle of the stored sample is
    a number, and as long as no orientation event has been handled
    ([isGyroReady] is false) the sample is the initial one, all zeros; an
    orientation event stores its angles with 0 in place of an absent one. *)
Theorem sensor_sample_never_absent w :
  reachable w ->
  (exists a b c,
      gyro (app w) = {| alpha := Some a; beta := Some b; gamma := Some c |}) /\
  (isGyroReady (app w) = false ->
   gyro (app w) = {| alpha := Some 0%float; beta := Some 0%float;
                     gamma := Some 0%float |}) /\
  (forall event,
      exists w', handle (Orientation event) w = Some w' /\
                 isGyroReady (app w') = true /\
                 gyro (app w') =
                   {| alpha := Some (or_zero (event_alpha event));
                      beta := Some (or_zero (event_beta event));
                      gamma := Some (or_zero (event_gamma event)) |}).
Proof.
  intros R. destruct (reachable_SensorInv w R) as [H1 H2].
  split; [exact H1|]. split; [exact H2|].
  intros event. eexists. split; [reflexivity|]. split; reflexivity.
Qed.

Lemma sensor_sample_never_absent_witness :
  (exists a b c,
      gyro (app (after untilCall))
        = {| alpha := Some a; beta := Some b; gamma := Some c |}) /\
  (isGyroReady (app (after untilCall)) = false ->
   gyro (app (after untilCall))
     = {| alpha := Some 0%float; beta := Some 0%float; gamma := Some 0%float |}) /\
  (forall event,
      exists w', handle (Orientation event) (after untilCall) = Some w' /\
                 isGyroReady (app w') = true /\
                 gyro (app w') =
                   {| alpha := Some (or_zero (event_alpha event));
                      beta := Some (or_zero (event_beta event));
                      gamma := Some (or_zero (event_gamma event)) |}).
Proof.
  apply (sensor_sample_never_absent (after untilCall)). apply after_reachable.
Defined.

(** An event none of whose angles is reported is stored as three zeros. *)
Example unreported_angles_become_zero :
  option_map (fun w => gyro (app w))
    (handle (Orientation {| event_alpha := None; event_beta := None;
                            event_gamma := None |}) initialWorld)
  = Some {| alpha := Some 0%float; beta := Some 0%float; gamma := Some 0%float |}.
Proof. reflexivity. Qed.

(** ** The engagement timer *)




(** The handlers themselves cancel nothing: nothing in [App.tsx] calls
    [clearTimeout].  Were [startVerification], [reset] and
    [startVerification] called one after the other, the timer of the first
    call would still be registered, before the one of the second. *)
Example restarted_timers :
  List.map fst (timers (restarted (3 # 4) (1 # 4) 1000)) = [4000%Z; 5000%Z] /\
  List.map (fun t => option_map id (closure_challenge (snd t)))
    (timers (restarted (3 # 4) (1 # 4) 1000)) = [Some "4"%string; Some "2"%string] /\
  option_map id (currentChallenge (app (restarted (3 # 4) (1 # 4) 1000)))
    = Some "2"%string.
Proof. vm_compute. auto. Qed.

(** No run of the application gets there: the buttons are not rendered
    while a timer is pending. *)
Lemma restarted_unreachable rnd1 rnd2 d1 : ~ reachable (restarted rnd1 rnd2 d1).
Proof.
  intros R.
  assert (L : List.length (timers (restarted rnd1 rnd2 d1)) = 2%nat) by reflexivity.
  destruct (reachable_Phase _ R)
    as [due cb Ht Hi Hs Hr He Hc Hcur Hcam | c Ht Hi Hs Hr He Hc Hcam | Ht Hi _];
    rewrite Ht in L; discriminate.
Qed.

(** In every reachable world at most one timer or call is pending, a timer
    only in status [CHALLENGE_REQUESTED] and a call only in status
    [VERIFYING]; wherever the start button or a reset button is rendered, no
    timer is registered and no call is in flight. *)
Theorem buttons_only_at_rest w :
  reachable w ->
  (List.length (timers w) + List.length (inflight w) <= 1)%nat /\
  (timers w <> [] -> status (app w) = CHALLENGE_REQUESTED) /\
  (inflight w <> [] -> status (app w) = VERIFYING) /\
  (showsStart (app w) = true \/ showsReset (app w) = true ->
   timers w = [] /\ inflight w = []).
Proof.
  intros R.
  assert (B : forall s, showsStart s = true \/ showsReset s = true ->
                        status s = IDLE \/ status s = SUCCESS \/ status s = FAILED).
  { intros s [C|C]; [left; apply showsStart_idle; exact C
                    | right; apply showsReset_terminal; exact C]. }
  destruct (reachable_Phase w R)
    as [due cb Ht Hi Hs Hr He Hc Hcur | c Ht Hi Hs Hr He Hc | Ht Hi H];
    rewrite Ht, Hi; simpl.
  - split; [lia|]. split; [intros _; exact Hs|]. split; [intros C; congruence|].
    intros C. apply B in C. rewrite Hs in C.
    destruct C as [C|[C|C]]; discriminate.
  - split; [lia|]. split; [intros C; congruence|]. split; [intros _; exact Hs|].
    intros C. apply B in C. rewrite Hs in C.
    destruct C as [C|[C|C]]; discriminate.
  - split; [lia|]. split; [intros C; congruence|]. split; [intros C; congruence|].
    auto.
Qed.

Lemma buttons_only_at_rest_witness :
  (List.length (timers (after untilTimer))
   + List.length (inflight (after untilTimer)) <= 1)%nat /\
  (timers (after untilTimer) <> [] ->
   status (app (after untilTimer)) = CHALLENGE_REQUESTED) /\
  (inflight (after untilTimer) <> [] ->
   status (app (after untilTimer)) = VERIFYING) /\
  (showsStart (app (after untilTimer)) = true \/
   showsReset (app (after untilTimer)) = true ->
   timers (after untilTimer) = [] /\ inflight (after untilTimer) = []).
Proof.
  apply (buttons_only_at_rest (after untilTimer)). apply after_reachable.
Defined.

(** ** The response of the remote service *)

(** C3, as stated: it is not the case that every body that does not parse
    into a verdict makes [verifyLiveness] throw.  A missing body does not. *)
Lemma missing_body_is_not_a_failure :
  ~ (forall body frame gyroData challenge,
        Spec.body_verdict body = None ->
        exists e, verifyLiveness (answering body) frame gyroData (Some challenge)
                  = Throw e).
Proof.
  intros H.
  destruct (H None EmptyString (gyro initialState)
              {| id := "1"; instruction := ""; expectedMovement := tilt_up |}
              eq_refl) as [e He].
  vm_compute in He. discriminate.
Qed.

(** With a missing body the session stores the empty object and fails the
    attempt. *)
Example missing_body_stored :
  result (app (after (untilCall ++ [Settles 0 (answering None)])))
    = Some (JObject []) /\
  status (app (after (untilCall ++ [Settles 0 (answering None)]))) = FAILED /\
  error (app (after (untilCall ++ [Settles 0 (answering None)]))) = None.
Proof. vm_compute. auto. Qed.

(** A body with [isLive] alone is stored as it is, and the attempt
    succeeds. *)
Example partial_body_stored :
  let body := lit ("{" ++ quote ++ "isLive" ++ quote ++ ":true}") in
  Spec.body_verdict (Some body) = None /\
  result (app (after (untilCall ++ [Settles 0 (answering (Some body))])))
    = Some (JObject [(lit "isLive", JBool true)]) /\
  status (app (after (untilCall ++ [Settles 0 (answering (Some body))])))
    = SUCCESS.
Proof. vm_compute. auto. Qed.

(** C3, amended.  When the remote service answers the awaited call with a
    response, [verifyLiveness] completes as [JSON.parse] does on the body,
    [{}] standing in for an empty or missing one.  If the text is not JSON,
    the call throws and the session goes to [IDLE] with the connectivity
    message and no verdict; if it is, the parsed value is returned and stored
    as it is, with no check of the three members. *)
Theorem verify_returns_what_parses w i call remote response :
  reachable w ->
  nth_error (inflight w) i = Some call ->
  (forall request, remote request = Return response) ->
  exists w', handle (Settles i remote) w = Some w' /\
    match JSON.parse (text_or_default response) with
    | Throw e =>
        verifyLiveness remote (arg_frame call) (arg_gyro call)
          (arg_challenge call) = Throw e /\
        status (app w') = IDLE /\
        error (app w') = Some service_unavailable /\
        result (app w') = None
    | Return x =>
        verifyLiveness remote (arg_frame call) (arg_gyro call)
          (arg_challenge call) = Return x /\
        result (app w') = nullable x
    end.
Proof.
  intros R Hn Hrem.
  destruct (inflight_awaiting w i call R Hn)
    as (-> & Ht & Hi & Hs & Hr & He & (c & Hc & _)).
  simpl. unfold settle. rewrite Hn. eexists. split; [reflexivity|].
  unfold verifyLiveness. rewrite Hc, Hrem.
  destruct (JSON.parse (text_or_default response)) as [x|e]; simpl.
  - split; [reflexivity|]. destruct (get_isLive x); reflexivity.
  - auto.
Qed.

Lemma verify_returns_what_parses_witness :
  exists w',
    handle (Settles 0 (answering (Some (lit "not json")))) (after untilCall)
      = Some w' /\
    verifyLiveness (answering (Some (lit "not json"))) "/9j/4AAQSkZJRg"
      {| alpha := Some 10%float; beta := Some 0%float; gamma := Some 3%float |}
      (nth_error CHALLENGES 2) = Throw SyntaxError /\
    status (app w') = IDLE /\
    error (app w') = Some service_unavailable /\
    result (app w') = None.
Proof.
  apply (verify_returns_what_parses (after untilCall) 0%nat
           {| arg_frame := "/9j/4AAQSkZJRg";
              arg_gyro := {| alpha := Some 10%float; beta := Some 0%float;
                             gamma := Some 3%float |};
              arg_challenge := nth_error CHALLENGES 2 |}
           (answering (Some (lit "not json")))
           {| text := Some (lit "not json") |}).
  - apply after_reachable.
  - vm_compute. reflexivity.
  - intros request. reflexivity.
Defined.

(* ================================================================== *)
(** * Further properties of the code *)

Import GyroVisualizer Sensors Calls.

(** ** [captureFrame] *)

Lemma after_comma_app header rest :
  has_comma header = false ->
  after_comma (header ++ String comma rest) = Some rest.
Proof.
  induction header as [|c h IH]; simpl.
  - intros _. reflexivity.
  - intros H. apply orb_false_iff in H as [Hc Hh]. rewrite Hc. apply IH, Hh.
Qed.

Lemma until_comma_id payload :
  has_comma payload = false -> until_comma payload = payload.
Proof.
  induction payload as [|c p IH]; simpl.
  - reflexivity.
  - intros H. apply orb_false_iff in H as [Hc Hp]. rewrite Hc, IH; auto.
Qed.

Lemma until_comma_no_comma s : has_comma (until_comma s) = false.
Proof.
  induction s as [|c s IH]; simpl.
  - reflexivity.
  - destruct (Ascii.eqb c comma) eqn:E; simpl; [reflexivity|].
    rewrite E, IH. reflexivity.
Qed.

(** The frame is the payload of the data URL: for a video that has pixels
    and a canvas with a 2d context, when [toDataURL] returns a header, a
    comma and a payload, neither with a comma of its own, [captureFrame]
    returns exactly the payload. *)
Theorem captureFrame_payload dom video canvas header payload :
  videoRef dom = Some video ->
  canvasRef dom = Some canvas ->
  context2d canvas = true ->
  videoWidth video <> 0%Z ->
  videoHeight video <> 0%Z ->
  toDataURL canvas = (header ++ String comma payload)%string ->
  has_comma header = false ->
  has_comma payload = false ->
  captureFrame dom = Some payload.
Proof.
  intros Hv Hc Hx Hw Hh Hu Hhd Hpl.
  unfold captureFrame. rewrite Hv, Hc, Hx. unfold dataURL.
  apply Z.eqb_neq in Hw, Hh. rewrite Hw, Hh. simpl.
  rewrite Hu. unfold split_comma_1.
  rewrite (after_comma_app header payload Hhd). simpl.
  rewrite until_comma_id; auto.
Qed.

Lemma captureFrame_payload_witness :
  captureFrame frontCamera = Some "/9j/4AAQSkZJRg"%string.
Proof.
  apply (captureFrame_payload frontCamera
           {| videoWidth := 640; videoHeight := 480 |}
           {| context2d := true;
              toDataURL := "data:image/jpeg;base64,/9j/4AAQSkZJRg" |}
           "data:image/jpeg;base64" "/9j/4AAQSkZJRg");
    try reflexivity; discriminate.
Defined.

(** What [captureFrame] returns has no comma, and it returns a string only
    if both references are set and the canvas has a 2d context. *)
Lemma captureFrame_some dom f :
  captureFrame dom = Some f ->
  has_comma f = false /\
  exists video canvas, videoRef dom = Some video /\
                       canvasRef dom = Some canvas /\
                       context2d canvas = true.
Proof.
  unfold captureFrame.
  destruct (videoRef dom) as [video|]; [|discriminate].
  destruct (canvasRef dom) as [canvas|]; [|discriminate].
  destruct (context2d canvas) eqn:E; [|discriminate].
  unfold split_comma_1.
  destruct (after_comma (dataURL video canvas)) as [r|]; simpl; [|discriminate].
  intros H. injection H as <-. split; [apply until_comma_no_comma | eauto].
Qed.

(** A video that has no pixels yet makes the attempt fail: the canvas
    serialises to a data URL with nothing after the comma, the empty frame
    counts as no frame, and the service is not called. *)
Theorem empty_video_fails_capture w i due cb dom video :
  reachable w ->
  nth_error (timers w) i = Some (due, cb) ->
  (due <= clock w)%Z ->
  videoRef dom = Some video ->
  videoWidth video = 0%Z \/ videoHeight video = 0%Z ->
  exists w', handle (TimerFires i dom) w = Some w' /\
             status (app w') = IDLE /\
             error (app w') = Some capture_failed /\
             result (app w') = None /\
             verifyCalls w' = verifyCalls w.
Proof.
  intros R Hn Hd Hv Hz.
  destruct (timer_engaged w i due cb R Hn) as (-> & Ht & Hi & Hs & Hr & He & _).
  assert (Hc : captureFrame dom = None \/ captureFrame dom = Some EmptyString).
  { unfold captureFrame. rewrite Hv.
    destruct (canvasRef dom) as [canvas|]; [|auto].
    destruct (context2d canvas); [|auto].
    right. unfold dataURL.
    assert (E : ((videoWidth video =? 0)%Z || (videoHeight video =? 0)%Z) = true).
    { destruct Hz as [->| ->]; [reflexivity | apply orb_true_r]. }
    rewrite E. reflexivity. }
  simpl. unfold fire. rewrite Hn.
  apply Z.leb_le in Hd. rewrite Hd.
  eexists. split; [reflexivity|].
  unfold timerCallback. destruct Hc as [-> | ->]; simpl; auto.
Qed.

Lemma empty_video_fails_capture_witness :
  exists w',
    handle (TimerFires 0
              {| videoRef := Some {| videoWidth := 0; videoHeight := 0 |};
                 canvasRef := canvasRef frontCamera |}) (after untilTimer)
      = Some w' /\
    status (app w') = IDLE /\
    error (app w') = Some capture_failed /\
    result (app w') = None /\
    verifyCalls w' = verifyCalls (after untilTimer).
Proof.
  apply (empty_video_fails_capture (after untilTimer) 0%nat 4000%Z
           {| closure_gyro := {| alpha := Some 10%float; beta := Some 0%float;
                                 gamma := Some 3%float |};
              closure_challenge := nth_error CHALLENGES 2 |}
           {| videoRef := Some {| videoWidth := 0; videoHeight := 0 |};
              canvasRef := canvasRef frontCamera |}
           {| videoWidth := 0; videoHeight := 0 |}).
  - apply after_reachable.
  - vm_compute. reflexivity.
  - vm_compute. discriminate.
  - reflexivity.
  - left. reflexivity.
Defined.

(** ** The session: readiness *)

Lemma showsStart_gyro s : showsStart s = true -> isGyroReady s = true.
Proof.
  unfold showsStart. intros H. apply andb_true_iff in H as [H _].
  apply andb_true_iff in H as [_ H]. exact H.
Qed.

Lemma gyro_ready_once_started w :
  reachable w ->
  status (app w) <> IDLE \/ timers w <> [] \/ inflight w <> [] ->
  isGyroReady (app w) = true.
Proof.
  induction 1 as [|w e w' R IH H]; intros P.
  - simpl in P. destruct P as [P|[P|P]]; congruence.
  - destruct e as [rnd| |d|i dom|i remote|event|outcome|outcome].
    + simpl in H. destruct (showsStart (app w)) eqn:Hs; [|discriminate].
      destruct (is_random rnd); [|discriminate]. injection H as <-.
      simpl. apply showsStart_gyro. exact Hs.
    + simpl in H. destruct (showsReset (app w)) eqn:Hs; [|discriminate].
      injection H as <-. simpl. apply IH. left.
      apply showsReset_terminal in Hs. destruct Hs as [Hs|Hs]; congruence.
    + simpl in H. destruct (0 <=? d)%Z; [|discriminate]. injection H as <-.
      apply IH. exact P.
    + simpl in H. unfold fire in H.
      destruct (nth_error (timers w) i) as [[due cb]|] eqn:Hn; [|discriminate].
      destruct (due <=? clock w)%Z; [|discriminate]. injection H as <-.
      assert (G : isGyroReady (app w) = true).
      { apply IH. right. left. intros C. rewrite C in Hn. destruct i; discriminate. }
      unfold timerCallback. destruct (captureFrame dom) as [[|a f]|]; exact G.
    + simpl in H. unfold settle in H.
      destruct (nth_error (inflight w) i) as [call|] eqn:Hn; [|discriminate].
      injection H as <-.
      assert (G : isGyroReady (app w) = true).
      { apply IH. right. right. intros C. rewrite C in Hn. destruct i; discriminate. }
      destruct (verifyLiveness remote (arg_frame call) (arg_gyro call)
                  (arg_challenge call)) as [x|err]; simpl; [|exact G].
      destruct (get_isLive x); exact G.
    + simpl in H. injection H as <-. reflexivity.
    + destruct (setup_step w _ w' H (or_introl (ex_intro _ outcome eq_refl)))
        as (Et & Ei & _ & Es & _ & _ & Eg & _).
      rewrite Eg. apply IH. rewrite <- Es, <- Et, <- Ei. exact P.
    + destruct (setup_step w _ w' H (or_intror (ex_intro _ outcome eq_refl)))
        as (Et & Ei & _ & Es & _ & _ & Eg & _).
      rewrite Eg. apply IH. rewrite <- Es, <- Et, <- Ei. exact P.
Qed.

(** Readiness of camera and sensors wherever an attempt has been started. *)
Lemma ready_once_started w :
  reachable w ->
  status (app w) <> IDLE \/ timers w <> [] \/ inflight w <> [] ->
  isCameraReady (app w) = true /\ isGyroReady (app w) = true.
Proof.
  intros R P. split; [|apply gyro_ready_once_started; assumption].
  destruct (isCameraReady (app w)) eqn:Hcam; [reflexivity|].
  destruct (Phase_before_camera w (reachable_Phase w R) Hcam) as (Ht & Hi & Hs & _).
  destruct P as [P|[P|P]]; congruence.
Qed.

(** No attempt runs or has run to a verdict unless the camera was started
    and an orientation event has arrived: wherever the status is not [IDLE],
    a timer is registered or a call is in flight, both readiness flags are
    set. *)
Theorem attempt_needs_camera_and_sensor w :
  reachable w ->
  status (app w) <> IDLE \/ timers w <> [] \/ inflight w <> [] ->
  isCameraReady (app w) = true /\ isGyroReady (app w) = true.
Proof. exact (ready_once_started w). Qed.

Lemma attempt_needs_camera_and_sensor_witness :
  isCameraReady (app (after untilCall)) = true /\
  isGyroReady (app (after untilCall)) = true.
Proof.
  apply (attempt_needs_camera_and_sensor (after untilCall)).
  - apply after_reachable.
  - left. vm_compute. discriminate.
Defined.

(** After [reset] from a verdict the start button is rendered again and the
    reset buttons are gone. *)
Theorem reset_returns_to_start w :
  reachable w ->
  showsReset (app w) = true ->
  exists w', handle ClickReset w = Some w' /\
             showsStart (app w') = true /\
             showsReset (app w') = false /\
             showsSetup (app w') = false.
Proof.
  intros R Hs. simpl. rewrite Hs. eexists. split; [reflexivity|].
  assert (P : status (app w) <> IDLE).
  { apply showsReset_terminal in Hs. destruct Hs as [Hs|Hs]; congruence. }
  destruct (ready_once_started w R (or_introl P)) as [Hc Hg].
  unfold showsStart, showsReset, showsSetup. simpl. rewrite Hc, Hg. auto.
Qed.

Lemma reset_returns_to_start_witness :
  exists w',
    handle ClickReset (after (untilCall ++ [Settles 0 (answering (Some spoofBody))]))
      = Some w' /\
    showsStart (app w') = true /\
    showsReset (app w') = false /\
    showsSetup (app w') = false.
Proof.
  apply (reset_returns_to_start
           (after (untilCall ++ [Settles 0 (answering (Some spoofBody))]))).
  - apply after_reachable.
  - vm_compute. reflexivity.
Defined.

(** A step of set-up keeps the session at rest with the start button where
    one of the two messages of the session is shown. *)
Lemma setup_rest w e w' :
  handle e w = Some w' ->
  (exists o, e = GyroInitialized o) \/ (exists o, e = CameraSettled o) ->
  (error (app w) = Some capture_failed \/
   error (app w) = Some service_unavailable ->
   status (app w) = IDLE /\ timers w = [] /\ inflight w = [] /\
   showsStart (app w) = true) ->
  error (app w') = Some capture_failed \/
  error (app w') = Some service_unavailable ->
  status (app w') = IDLE /\ timers w' = [] /\ inflight w' = [] /\
  showsStart (app w') = true.
Proof.
  intros H S IH E.
  destruct (setup_step w e w' H S) as (Et & Ei & _ & Es & _ & _ & Eg & Ec).
  destruct (setup_error w e w' H S) as [Ee | (m & Ee & Hm)].
  - rewrite Ee in E. destruct (IH E) as (Hs & Ht & Hi & Hst).
    rewrite Et, Ei, Es. repeat split; auto.
    unfold showsStart. rewrite Es, Eg, Hs.
    rewrite (Ec (showsStart_camera _ Hst)), (showsStart_gyro _ Hst). reflexivity.
  - destruct (setup_message_not_session m Hm) as [N1 N2].
    rewrite Ee in E. destruct E as [E|E]; injection E as E; contradiction.
Qed.

(** A failed attempt can be repeated at once: wherever the capture error or
    the connectivity error is shown, the session is at rest in [IDLE] and
    the start button is rendered, without a [reset]. *)
Theorem failure_leaves_start_available w :
  reachable w ->
  error (app w) = Some capture_failed \/
  error (app w) = Some service_unavailable ->
  status (app w) = IDLE /\ timers w = [] /\ inflight w = [] /\
  showsStart (app w) = true.
Proof.
  induction 1 as [|w e w' R IH H]; intros E.
  - simpl in E. destruct E; discriminate.
  - assert (K : forall v : World,
               status (app v) = IDLE -> isCameraReady (app v) = true ->
               isGyroReady (app v) = true -> showsStart (app v) = true).
    { intros v A B C. unfold showsStart. rewrite A, B, C. reflexivity. }
    destruct e as [rnd| |d|i dom|i remote|event|outcome|outcome].
    + simpl in H. destruct (showsStart (app w) && is_random rnd); [|discriminate].
      injection H as <-. simpl in E. destruct E; discriminate.
    + simpl in H. destruct (showsReset (app w)); [|discriminate].
      injection H as <-. simpl in E. destruct E; discriminate.
    + simpl in H. destruct (0 <=? d)%Z; [|discriminate]. injection H as <-.
      apply IH. exact E.
    + simpl in H. unfold fire in H.
      destruct (nth_error (timers w) i) as [[due cb]|] eqn:Hn; [|discriminate].
      destruct (due <=? clock w)%Z; [|discriminate]. injection H as <-.
      destruct (timer_engaged w i due cb R Hn) as (-> & Ht & Hi & Hs & Hr & He & _).
      assert (P : timers w <> []) by (rewrite Ht; discriminate).
      destruct (ready_once_started w R (or_intror (or_introl P)))
        as [Hc Hg].
      revert E. unfold timerCallback.
      destruct (captureFrame dom) as [[|a f]|]; simpl; rewrite ?Ht, ?Hi; simpl.
      * intros _. repeat split; auto.
        unfold showsStart. simpl. rewrite Hc, Hg. reflexivity.
      * destruct (AttemptError_not_session _ He) as [N1 N2].
        intros [E|E]; contradiction.
      * intros _. repeat split; auto.
        unfold showsStart. simpl. rewrite Hc, Hg. reflexivity.
    + simpl in H. unfold settle in H.
      destruct (nth_error (inflight w) i) as [call|] eqn:Hn; [|discriminate].
      injection H as <-.
      destruct (inflight_awaiting w i call R Hn) as (-> & Ht & Hi & Hs & Hr & He & _).
      assert (P : inflight w <> []) by (rewrite Hi; discriminate).
      destruct (ready_once_started w R (or_intror (or_intror P)))
        as [Hc Hg].
      revert E.
      destruct (verifyLiveness remote (arg_frame call) (arg_gyro call)
                  (arg_challenge call)) as [x|err]; simpl; rewrite ?Ht, ?Hi; simpl.
      * destruct (get_isLive x) as [b|err]; simpl.
        -- destruct (AttemptError_not_session _ He) as [N1 N2].
           intros [E|E]; contradiction.
        -- intros _. repeat split; auto.
           unfold showsStart. simpl. rewrite Hc, Hg. reflexivity.
      * intros _. repeat split; auto.
        unfold showsStart. simpl. rewrite Hc, Hg. reflexivity.
    + simpl in H. injection H as <-. simpl in E.
      destruct (IH E) as (Hs & Ht & Hi & Hst).
      repeat split; auto. unfold showsStart. simpl.
      rewrite (showsStart_camera _ Hst). rewrite Hs. reflexivity.
    + apply (setup_rest w _ w' H (or_introl (ex_intro _ outcome eq_refl)) IH E).
    + apply (setup_rest w _ w' H (or_intror (ex_intro _ outcome eq_refl)) IH E).
Qed.

Lemma failure_leaves_start_available_witness :
  status (app (after (untilCall ++ [Settles 0 unreachable]))) = IDLE /\
  timers (after (untilCall ++ [Settles 0 unreachable])) = [] /\
  inflight (after (untilCall ++ [Settles 0 unreachable])) = [] /\
  showsStart (app (after (untilCall ++ [Settles 0 unreachable]))) = true.
Proof.
  apply (failure_leaves_start_available
           (after (untilCall ++ [Settles 0 unreachable]))).
  - apply after_reachable.
  - right. vm_compute. reflexivity.
Defined.

(** ** The session: what the service is asked *)

(** How one event changes the calls made so far. *)
Lemma verifyCalls_step w e w' :
  handle e w = Some w' ->
  verifyCalls w' = verifyCalls w \/
  exists i dom due cb a f,
    e = TimerFires i dom /\
    nth_error (timers w) i = Some (due, cb) /\
    captureFrame dom = Some (String a f) /\
    verifyCalls w' =
      (verifyCalls w ++ [ {| arg_frame := String a f;
                             arg_gyro := closure_gyro cb;
                             arg_challenge := closure_challenge cb |} ])%list.
Proof.
  intros H. destruct e as [rnd| |d|i dom|i remote|event|outcome|outcome]; simpl in H.
  - destruct (showsStart (app w) && is_random rnd); [|discriminate].
    injection H as <-. left. reflexivity.
  - destruct (showsReset (app w)); [|discriminate]. injection H as <-.
    left. reflexivity.
  - destruct (0 <=? d)%Z; [|discriminate]. injection H as <-. left. reflexivity.
  - unfold fire in H.
    destruct (nth_error (timers w) i) as [[due cb]|] eqn:Hn; [|discriminate].
    destruct (due <=? clock w)%Z; [|discriminate]. injection H as <-.
    unfold timerCallback.
    destruct (captureFrame dom) as [[|a f]|] eqn:Hc; simpl; auto.
    right. exists i, dom, due, cb, a, f. auto.
  - unfold settle in H.
    destruct (nth_error (inflight w) i) as [call|]; [|discriminate].
    injection H as <-. left.
    destruct (verifyLiveness remote (arg_frame call) (arg_gyro call)
                (arg_challenge call)) as [x|err]; simpl; [|reflexivity].
    destruct (get_isLive x); reflexivity.
  - injection H as <-. left. reflexivity.
  - injection H as <-. left.
    apply (setup_frame (initializeGyro outcome) w (initializeGyro_effects outcome)).
  - injection H as <-. left.
    apply (setup_frame (startCamera outcome) w (startCamera_effects outcome)).
Qed.

(** [verifyLiveness] is called by the timer callback only, once per run that
    captures a frame, with the frame, the [gyro] and the challenge the
    callback closed over; no other event adds a call. *)
Theorem service_called_only_by_timer w e w' :
  handle e w = Some w' ->
  verifyCalls w' = verifyCalls w \/
  exists i dom due cb a f,
    e = TimerFires i dom /\
    nth_error (timers w) i = Some (due, cb) /\
    captureFrame dom = Some (String a f) /\
    verifyCalls w' =
      (verifyCalls w ++ [ {| arg_frame := String a f;
                             arg_gyro := closure_gyro cb;
                             arg_challenge := closure_challenge cb |} ])%list.
Proof. exact (verifyCalls_step w e w'). Qed.

Lemma service_called_only_by_timer_witness :
  verifyCalls (after untilCall) = verifyCalls (after untilTimer) \/
  exists i dom due cb a f,
    TimerFires 0 frontCamera = TimerFires i dom /\
    nth_error (timers (after untilTimer)) i = Some (due, cb) /\
    captureFrame dom = Some (String a f) /\
    verifyCalls (after untilCall) =
      (verifyCalls (after untilTimer)
       ++ [ {| arg_frame := String a f;
               arg_gyro := closure_gyro cb;
               arg_challenge := closure_challenge cb |} ])%list.
Proof.
  apply (service_called_only_by_timer (after untilTimer)
           (TimerFires 0 frontCamera) (after untilCall)).
  vm_compute. reflexivity.
Defined.

Lemma catalog_never_steady c : In c CHALLENGES -> expectedMovement c <> steady.
Proof.
  simpl. intros [<-|[<-|[<-|[<-|[]]]]]; discriminate.
Qed.

Lemma timers_numeric w :
  reachable w ->
  forall due cb, In (due, cb) (timers w) ->
                 numeric (closure_gyro cb) /\ catalogued (closure_challenge cb).
Proof.
  induction 1 as [|w e w' R IH H]; intros due cb Hin.
  - contradiction.
  - destruct e as [rnd| |d|i dom|i remote|event|outcome|outcome].
    + simpl in H. destruct (showsStart (app w)) eqn:Hs; [|discriminate].
      destruct (is_random rnd) eqn:Hr; [|discriminate]. injection H as <-.
      destruct (Phase_rest_of_status w (reachable_Phase w R)
                  (or_introl (showsStart_idle _ Hs))) as [Ht _].
      simpl in Hin. rewrite Ht in Hin. destruct Hin as [Hin|[]].
      injection Hin as <- <-. simpl. split.
      * apply (reachable_SensorInv w R).
      * apply pickChallenge_catalogued. exact Hr.
    + simpl in H. destruct (showsReset (app w)); [|discriminate].
      injection H as <-. apply (IH due cb). exact Hin.
    + simpl in H. destruct (0 <=? d)%Z; [|discriminate]. injection H as <-.
      apply (IH due cb). exact Hin.
    + simpl in H. unfold fire in H.
      destruct (nth_error (timers w) i) as [[due' cb']|] eqn:Hn; [|discriminate].
      destruct (due' <=? clock w)%Z; [|discriminate]. injection H as <-.
      destruct (timer_engaged w i due' cb' R Hn) as (-> & Ht & _).
      exfalso. revert Hin. unfold timerCallback.
      destruct (captureFrame dom) as [[|a f]|]; simpl; rewrite Ht; simpl; auto.
    + simpl in H. unfold settle in H.
      destruct (nth_error (inflight w) i) as [call|] eqn:Hn; [|discriminate].
      injection H as <-.
      destruct (inflight_awaiting w i call R Hn) as (-> & Ht & _).
      exfalso. revert Hin.
      destruct (verifyLiveness remote (arg_frame call) (arg_gyro call)
                  (arg_challenge call)) as [x|err]; simpl;
        [destruct (get_isLive x); simpl|]; rewrite Ht; simpl; auto.
    + simpl in H. injection H as <-. apply (IH due cb). exact Hin.
    + destruct (setup_step w _ w' H (or_introl (ex_intro _ outcome eq_refl)))
        as (Ht & _).
      rewrite Ht in Hin. apply (IH due cb). exact Hin.
    + destruct (setup_step w _ w' H (or_intror (ex_intro _ outcome eq_refl)))
        as (Ht & _).
      rewrite Ht in Hin. apply (IH due cb). exact Hin.
Qed.

(** Every call of the service ever made carries a non-empty image without
    the data URL header, three angles that are numbers (so the prompt never
    shows an angle as missing), and a challenge of the catalog, which never
    asks to hold steady. *)
Theorem calls_well_formed w :
  reachable w -> Forall CallOk (verifyCalls w).
Proof.
  induction 1 as [|w e w' R IH H].
  - constructor.
  - destruct (verifyCalls_step w e w' H)
      as [-> | (i & dom & due & cb & a & f & -> & Hn & Hc & ->)]; [exact IH|].
    apply Forall_app. split; [exact IH|]. constructor; [|constructor].
    destruct (timers_numeric w R due cb (nth_error_In _ _ Hn)) as [Hg (c & Hch & Hin)].
    unfold CallOk. simpl. split; [discriminate|].
    split; [apply (captureFrame_some dom _ Hc)|]. split; [exact Hg|].
    exists c. split; [exact Hch|]. split; [exact Hin | apply catalog_never_steady, Hin].
Qed.

Lemma calls_well_formed_witness : Forall CallOk (verifyCalls (after untilCall)).
Proof.
  apply (calls_well_formed (after untilCall)). apply after_reachable.
Defined.

(** Pending timers and calls carry the current challenge. *)
Lemma pending_challenge_current w :
  reachable w ->
  (forall due cb, In (due, cb) (timers w) ->
                  closure_challenge cb = currentChallenge (app w)) /\
  (forall call, In call (inflight w) ->
                arg_challenge call = currentChallenge (app w)).
Proof.
  intros R. split.
  - intros due cb Hin.
    destruct (reachable_Phase w R)
      as [due' cb' Ht Hi Hs Hr He Hc Hcur Hcam | c Ht Hi Hs Hr He Hc Hcam | Ht Hi _];
      rewrite Ht in Hin; try contradiction.
    destruct Hin as [Hin|[]]. injection Hin as <- <-. symmetry. exact Hcur.
  - induction R as [|w e w' R IH H]; intros call Hin.
    + contradiction.
    + destruct e as [rnd| |d|i dom|i remote|event|outcome|outcome].
      * simpl in H. destruct (showsStart (app w)) eqn:Hs; [|discriminate].
        destruct (is_random rnd); [|discriminate]. injection H as <-.
        destruct (Phase_rest_of_status w (reachable_Phase w R)
                    (or_introl (showsStart_idle _ Hs))) as [_ Hi].
        simpl in Hin. rewrite Hi in Hin. contradiction.
      * simpl in H. destruct (showsReset (app w)) eqn:Hs; [|discriminate].
        injection H as <-.
        destruct (Phase_rest_of_status w (reachable_Phase w R)
                    (or_intror (showsReset_terminal _ Hs))) as [_ Hi].
        simpl in Hin. rewrite Hi in Hin. contradiction.
      * simpl in H. destruct (0 <=? d)%Z; [|discriminate]. injection H as <-.
        apply IH. exact Hin.
      * simpl in H. unfold fire in H.
        destruct (nth_error (timers w) i) as [[due cb]|] eqn:Hn; [|discriminate].
        destruct (due <=? clock w)%Z; [|discriminate]. injection H as <-.
        destruct (reachable_Phase w R)
          as [due' cb' Ht Hi Hs Hr He Hc Hcur Hcam | c Ht Hi Hs Hr He Hc Hcam | Ht Hi _];
          rewrite Ht in Hn; try (destruct i; discriminate).
        destruct i as [|i]; simpl in Hn; [|destruct i; discriminate].
        injection Hn as <- <-.
        revert Hin. unfold timerCallback.
        destruct (captureFrame dom) as [[|a f]|]; simpl; rewrite Hi; simpl;
          try contradiction.
        intros [<-|[]]. simpl. symmetry. exact Hcur.
      * simpl in H. unfold settle in H.
        destruct (nth_error (inflight w) i) as [c|] eqn:Hn; [|discriminate].
        injection H as <-.
        destruct (inflight_awaiting w i c R Hn) as (-> & Ht & Hi & _).
        exfalso. revert Hin.
        destruct (verifyLiveness remote (arg_frame c) (arg_gyro c)
                    (arg_challenge c)) as [x|err]; simpl;
          [destruct (get_isLive x); simpl|]; rewrite Hi; simpl; auto.
      * simpl in H. injection H as <-. apply IH. exact Hin.
      * destruct (setup_step w _ w' H (or_introl (ex_intro _ outcome eq_refl)))
          as (_ & Hi & _ & _ & _ & Hc & _).
        rewrite Hi in Hin. rewrite Hc. apply IH. exact Hin.
      * destruct (setup_step w _ w' H (or_intror (ex_intro _ outcome eq_refl)))
          as (_ & Hi & _ & _ & _ & Hc & _).
        rewrite Hi in Hin. rewrite Hc. apply IH. exact Hin.
Qed.

(** The challenge on display is the one the service is asked about: every
    registered timer and every call in flight carries the current
    challenge. *)
Theorem challenge_shown_is_sent w :
  reachable w ->
  (forall due cb, In (due, cb) (timers w) ->
                  closure_challenge cb = currentChallenge (app w)) /\
  (forall call, In call (inflight w) ->
                arg_challenge call = currentChallenge (app w)).
Proof. exact (pending_challenge_current w). Qed.

Lemma challenge_shown_is_sent_witness :
  (forall due cb, In (due, cb) (timers (after untilCall)) ->
                  closure_challenge cb = currentChallenge (app (after untilCall))) /\
  (forall call, In call (inflight (after untilCall)) ->
                arg_challenge call = currentChallenge (app (after untilCall))).
Proof.
  apply (challenge_shown_is_sent (after untilCall)). apply after_reachable.
Defined.

(** ** The session: the engagement wait *)

(** Orientation events change [gyro] and nothing the attempt waits on. *)
Lemma orientations_keep_pending events : forall w,
  exists w', handleAll (List.map Orientation events) w = Some w' /\
             timers w' = timers w /\ inflight w' = inflight w /\
             clock w' = clock w /\ verifyCalls w' = verifyCalls w.
Proof.
  induction events as [|ev events IH]; intros w; simpl.
  - eauto 10.
  - destruct (IH (performAll (handleOrientation ev) w)) as (w' & H & E1 & E2 & E3 & E4).
    exists w'. split; [exact H|]. rewrite E1, E2, E3, E4. auto.
Qed.

(** The angles the service receives are those of the moment of the click:
    whatever orientation events arrive during the wait, the call made when
    the timer runs carries the [gyro] the start handler closed over. *)
Theorem call_carries_gyro_of_click w rnd events dom a f :
  reachable w ->
  showsStart (app w) = true ->
  is_random rnd = true ->
  captureFrame dom = Some (String a f) ->
  exists w',
    handleAll (ClickStart rnd :: List.map Orientation events
               ++ [Elapse 4000; TimerFires 0 dom]) w = Some w' /\
    inflight w' = [ {| arg_frame := String a f;
                       arg_gyro := gyro (app w);
                       arg_challenge := pickChallenge rnd |} ].
Proof.
  intros R Hs Hr Hc.
  destruct (Phase_rest_of_status w (reachable_Phase w R)
              (or_introl (showsStart_idle _ Hs))) as [Ht Hi].
  cbn [handleAll handle]. rewrite Hs, Hr. cbn [andb].
  rewrite handleAll_app.
  destruct (orientations_keep_pending events (call_startVerification rnd w))
    as (w1 & -> & E1 & E2 & E3 & _).
  cbn [handleAll handle]. replace (0 <=? 4000)%Z with true by reflexivity.
  unfold fire.
  assert (T : timers (elapse 4000 w1)
              = [((clock w + 4000)%Z,
                  {| closure_gyro := gyro (app w);
                     closure_challenge := pickChallenge rnd |})]).
  { simpl. rewrite E1. simpl. rewrite Ht. reflexivity. }
  rewrite T. simpl nth_error. cbv iota beta.
  assert (C : clock (elapse 4000 w1) = (clock w + 4000)%Z).
  { simpl. rewrite E3. reflexivity. }
  rewrite C, Z.leb_refl.
  eexists. split; [reflexivity|].
  unfold timerCallback. rewrite Hc. simpl. rewrite E2. simpl. rewrite Hi. reflexivity.
Qed.

Lemma call_carries_gyro_of_click_witness :
  exists w',
    handleAll (ClickStart (1 # 2) :: List.map Orientation [flat; flat]
               ++ [Elapse 4000; TimerFires 0 frontCamera])
      (after [CameraSettled (Streaming true);
              Orientation {| event_alpha := Some 1%float; event_beta := Some 2%float;
                             event_gamma := None |}]) = Some w' /\
    inflight w' = [ {| arg_frame := "/9j/4AAQSkZJRg";
                       arg_gyro := {| alpha := Some 1%float; beta := Some 2%float;
                                      gamma := Some 0%float |};
                       arg_challenge := pickChallenge (1 # 2) |} ].
Proof.
  apply (call_carries_gyro_of_click
           (after [CameraSettled (Streaming true);
                   Orientation {| event_alpha := Some 1%float;
                                  event_beta := Some 2%float;
                                  event_gamma := None |}])
           (1 # 2) [flat; flat] frontCamera "/"%char "9j/4AAQSkZJRg").
  - apply after_reachable.
  - vm_compute. reflexivity.
  - reflexivity.
  - reflexivity.
Defined.

(** The timer callback of an attempt can run from 4000 ms after the click
    and not before. *)
Theorem timer_runs_from_4000 w rnd d dom :
  reachable w ->
  showsStart (app w) = true ->
  is_random rnd = true ->
  (0 <= d)%Z ->
  (handleAll [ClickStart rnd; Elapse d; TimerFires 0 dom] w <> None
   <-> (4000 <= d)%Z).
Proof.
  intros R Hs Hr Hd.
  destruct (Phase_rest_of_status w (reachable_Phase w R)
              (or_introl (showsStart_idle _ Hs))) as [Ht Hi].
  cbn [handleAll handle]. rewrite Hs, Hr. cbn [andb].
  apply Z.leb_le in Hd. rewrite Hd.
  unfold fire. simpl timers. rewrite Ht. simpl nth_error. cbv iota beta.
  simpl clock.
  destruct (clock w + 4000 <=? clock w + d)%Z eqn:E.
  - apply Z.leb_le in E. split; [lia | discriminate].
  - apply Z.leb_gt in E. split; [congruence | lia].
Qed.

Lemma timer_runs_from_4000_witness :
  handleAll [ClickStart (1 # 2); Elapse 3999; TimerFires 0 frontCamera]
    (after [CameraSettled (Streaming true); Orientation flat]) <> None
  <-> (4000 <= 3999)%Z.
Proof.
  apply (timer_runs_from_4000
           (after [CameraSettled (Streaming true); Orientation flat])
           (1 # 2) 3999%Z frontCamera).
  - apply after_reachable.
  - vm_compute. reflexivity.
  - reflexivity.
  - lia.
Defined.

(** ** [verifyLiveness] and what the session makes of its result *)

(** The model of [JSON.parse] throws nothing but a [SyntaxError]. *)
Lemma parse_throws_syntax_error text e :
  JSON.parse text = Throw e -> e = SyntaxError.
Proof.
  unfold JSON.parse.
  destruct (JSON.run _ text) as [st|]; [destruct (JSON.finish st)|];
    intros H; try discriminate; injection H as <-; reflexivity.
Qed.

(** A body that is the JSON text [null] ends the attempt like an unreachable
    service: reading [isLive] of [null] throws inside the [try], so the
    session goes to [IDLE] with the connectivity message and no verdict. *)
Theorem null_verdict_is_a_failure w i call remote :
  reachable w ->
  nth_error (inflight w) i = Some call ->
  verifyLiveness remote (arg_frame call) (arg_gyro call) (arg_challenge call)
    = Return JNull ->
  exists w', handle (Settles i remote) w = Some w' /\
             status (app w') = IDLE /\
             error (app w') = Some service_unavailable /\
             result (app w') = None.
Proof.
  intros R Hn Hv.
  destruct (inflight_awaiting w i call R Hn) as (-> & Ht & Hi & Hs & Hr & He & Hc).
  simpl. unfold settle. rewrite Hn, Hv. eexists. split; [reflexivity|].
  simpl. auto.
Qed.

Lemma null_verdict_is_a_failure_witness :
  exists w', handle (Settles 0 (answering (Some (lit " null")))) (after untilCall)
             = Some w' /\
             status (app w') = IDLE /\
             error (app w') = Some service_unavailable /\
             result (app w') = None.
Proof.
  apply (null_verdict_is_a_failure (after untilCall) 0%nat
           {| arg_frame := "/9j/4AAQSkZJRg";
              arg_gyro := {| alpha := Some 10%float; beta := Some 0%float;
                             gamma := Some 3%float |};
              arg_challenge := nth_error CHALLENGES 2 |}
           (answering (Some (lit " null")))).
  - apply after_reachable.
  - vm_compute. reflexivity.
  - vm_compute. reflexivity.
Defined.

(** The outcome of an attempt follows the truthiness of [isLive], whatever
    its type: for a returned value other than [null] the value is stored,
    the error is left as it was, and the status is [SUCCESS] exactly if the
    value is an object whose [isLive] member is truthy, and [FAILED]
    otherwise. *)
Theorem success_iff_isLive_truthy w i call remote x :
  reachable w ->
  nth_error (inflight w) i = Some call ->
  verifyLiveness remote (arg_frame call) (arg_gyro call) (arg_challenge call)
    = Return x ->
  x <> JNull ->
  exists w', handle (Settles i remote) w = Some w' /\
             result (app w') = Some x /\
             error (app w') = error (app w) /\
             (status (app w') = SUCCESS \/ status (app w') = FAILED) /\
             (status (app w') = SUCCESS <->
              exists members, x = JObject members /\
                              truthy (lookup (lit "isLive") members) = true).
Proof.
  intros R Hn Hv Hx.
  destruct (inflight_awaiting w i call R Hn) as (-> & Ht & Hi & Hs & Hr & He & Hc).
  simpl. unfold settle. rewrite Hn, Hv. eexists. split; [reflexivity|].
  destruct x as [|b|n|s|xs|ms]; try contradiction; simpl;
    (split; [reflexivity|]); (split; [reflexivity|]).
  1-4: split; [right; reflexivity|];
       split; [discriminate | intros (members & C & _); discriminate].
  destruct (truthy (lookup (lit "isLive") ms)) eqn:T.
  - split; [left; reflexivity|]. split; [eauto | reflexivity].
  - split; [right; reflexivity|]. split; [discriminate|].
    intros (members & C & T'). injection C as <-. congruence.
Qed.

(** An [isLive] that is the string ["false"] counts as live. *)
Lemma success_iff_isLive_truthy_witness :
  exists w',
    handle (Settles 0 (answering
              (Some (lit ("{" ++ quote ++ "isLive" ++ quote ++ ":"
                          ++ quote ++ "false" ++ quote ++ "}")))))
      (after untilCall) = Some w' /\
    result (app w') = Some (JObject [(lit "isLive", JString (lit "false"))]) /\
    error (app w') = error (app (after untilCall)) /\
    (status (app w') = SUCCESS \/ status (app w') = FAILED) /\
    (status (app w') = SUCCESS <->
     exists members,
       JObject [(lit "isLive", JString (lit "false"))] = JObject members /\
       truthy (lookup (lit "isLive") members) = true).
Proof.
  apply (success_iff_isLive_truthy (after untilCall) 0%nat
           {| arg_frame := "/9j/4AAQSkZJRg";
              arg_gyro := {| alpha := Some 10%float; beta := Some 0%float;
                             gamma := Some 3%float |};
              arg_challenge := nth_error CHALLENGES 2 |}
           (answering
              (Some (lit ("{" ++ quote ++ "isLive" ++ quote ++ ":"
                          ++ quote ++ "false" ++ quote ++ "}"))))
           (JObject [(lit "isLive", JString (lit "false"))])).
  - apply after_reachable.
  - vm_compute. reflexivity.
  - vm_compute. reflexivity.
  - discriminate.
Defined.

(** ** Set-up *)

(** [startCamera] marks the camera ready only when [getUserMedia] resolves
    and the video element is mounted.  When it resolves without the element
    nothing changes, and when it rejects an error message is set and the
    set-up button stays, so set-up can be tried again. *)
Theorem camera_ready_only_when_streaming w outcome :
  reachable w ->
  isCameraReady (app w) = false ->
  exists w', handle (CameraSettled outcome) w = Some w' /\
    match outcome with
    | Streaming true =>
        isCameraReady (app w') = true /\ error (app w') = error (app w) /\
        showsSetup (app w') = false
    | Streaming false => w' = w
    | Rejected _ _ =>
        isCameraReady (app w') = false /\ error (app w') <> None /\
        showsSetup (app w') = true /\ showsStart (app w') = false
    end.
Proof.
  intros R Hcam.
  destruct (Phase_before_camera w (reachable_Phase w R) Hcam) as (Ht & Hi & Hs & Hr).
  simpl. eexists. split; [reflexivity|].
  destruct outcome as [[|]|name message]; simpl.
  - split; [reflexivity|]. split; [reflexivity|].
    unfold showsSetup. simpl. rewrite Hs. reflexivity.
  - destruct w as [[]]; reflexivity.
  - unfold showsSetup, showsStart.
    destruct (String.eqb name "NotAllowedError" || String.eqb name "PermissionDeniedError");
      [|destruct (String.eqb name "NotFoundError" || String.eqb name "DevicesNotFoundError")];
      simpl; rewrite Hcam, Hs; repeat split; discriminate.
Qed.

Lemma camera_ready_only_when_streaming_witness :
  exists w',
    handle (CameraSettled (Rejected "NotReadableError" None)) initialWorld = Some w' /\
    isCameraReady (app w') = false /\ error (app w') <> None /\
    showsSetup (app w') = true /\ showsStart (app w') = false.
Proof.
  apply (camera_ready_only_when_streaming initialWorld
           (Rejected "NotReadableError" None)).
  - apply reachable_initial.
  - reflexivity.
Defined.

(** The message for a rejection that is neither a refusal nor a missing
    camera always has a detail after its prefix: the error's message, or
    [Unknown error] when that is missing or empty. *)
Lemma camera_error_detail name message :
  String.eqb name "NotAllowedError" || String.eqb name "PermissionDeniedError" = false ->
  String.eqb name "NotFoundError" || String.eqb name "DevicesNotFoundError" = false ->
  exists detail, detail <> EmptyString /\
    startCamera (Rejected name message)
    = [ SetState (SetError (Some ("Camera error: " ++ detail)%string)) ].
Proof.
  intros H1 H2. unfold startCamera. rewrite H1, H2.
  destruct message as [[|c m]|]; eexists; (split; [|reflexivity]); discriminate.
Qed.

(** ** [pickChallenge] *)

(** [Math.floor(rnd * 4)] cuts the range of [Math.random()] into four
    intervals of the same width: a value in the [k]-th quarter picks the
    [k]-th challenge of the catalog. *)
Theorem pickChallenge_quarters rnd k :
  (k < 4)%nat ->
  (Z.of_nat k # 4 <= rnd)%Q ->
  (rnd < Z.of_nat (S k) # 4)%Q ->
  pickChallenge rnd = nth_error CHALLENGES k /\ pickChallenge rnd <> None.
Proof.
  intros Hk Hlo Hhi.
  assert (F : Qfloor (rnd * inject_Z 4) = Z.of_nat k).
  { assert (L : (inject_Z (Z.of_nat k) <= rnd * inject_Z 4)%Q).
    { unfold Qle in *. destruct rnd as [n d].
      cbn [Qnum Qden Qmult inject_Z] in *. lia. }
    assert (U : (rnd * inject_Z 4 < inject_Z (Z.of_nat k + 1))%Q).
    { unfold Qlt in *. destruct rnd as [n d].
      cbn [Qnum Qden Qmult inject_Z] in *. lia. }
    pose proof (Qfloor_le (rnd * inject_Z 4)) as A.
    pose proof (Qlt_floor (rnd * inject_Z 4)) as B.
    assert (A' : (inject_Z (Qfloor (rnd * inject_Z 4)) < inject_Z (Z.of_nat k + 1))%Q)
      by (eapply Qle_lt_trans; eassumption).
    assert (B' : (inject_Z (Z.of_nat k) < inject_Z (Qfloor (rnd * inject_Z 4) + 1))%Q)
      by (eapply Qle_lt_trans; eassumption).
    rewrite <- Zlt_Qlt in A', B'. lia. }
  unfold pickChallenge.
  change (inject_Z (Z.of_nat (List.length CHALLENGES))) with (inject_Z 4).
  rewrite F.
  replace (Z.of_nat k <? 0)%Z with false by (symmetry; apply Z.ltb_ge; lia).
  rewrite Nat2Z.id. split; [reflexivity|].
  destruct k as [|[|[|[|k]]]]; simpl; try discriminate. lia.
Qed.

Lemma pickChallenge_quarters_witness :
  pickChallenge (5 # 8) = nth_error CHALLENGES 2 /\ pickChallenge (5 # 8) <> None.
Proof.
  apply (pickChallenge_quarters (5 # 8) 2%nat).
  - lia.
  - vm_compute. discriminate.
  - vm_compute. reflexivity.
Defined.

(** ** The orientation listeners *)

(** [initializeGyro] attaches a listener exactly when the global
    [DeviceOrientationEvent] is there and either has no [requestPermission]
    or that call resolves to [granted].  On a platform without the global it
    reports a refused permission: the branch for an unsupported device is
    never taken. *)
Theorem unsupported_reported_as_denied p :
  gyroOutcome p <> NotSupported /\
  (orientationAPI p = None -> gyroOutcome p = PermissionDenied) /\
  (gyroOutcome p = Listening <->
   exists api, orientationAPI p = Some api /\
               (requestPermission api = None \/
                requestPermission api = Some (Return "granted"%string))).
Proof.
  unfold gyroOutcome, requestGyroPermission.
  destruct (orientationAPI p) as [[rp]|]; simpl.
  - destruct rp as [[s|e]|].
    + destruct (String.eqb s "granted") eqn:E.
      * apply String.eqb_eq in E. subst s.
        split; [discriminate|]. split; [discriminate|].
        split; [eauto | reflexivity].
      * split; [discriminate|]. split; [discriminate|].
        split; [discriminate|].
        intros (api & C & [H|H]); injection C as <-; simpl in H; [discriminate|].
        injection H as ->. rewrite String.eqb_refl in E. discriminate.
    + split; [discriminate|]. split; [discriminate|].
      split; [discriminate|].
      intros (api & C & [H|H]); injection C as <-; simpl in H; discriminate.
    + split; [discriminate|]. split; [discriminate|].
      split; [eauto | reflexivity].
  - split; [discriminate|]. split; [reflexivity|].
    split; [discriminate | intros (api & C & _); discriminate].
Qed.

Lemma cleanup_tidy r :
  Tidy r -> listeners (cleanup r) = [] /\ gyroCleanupRef (cleanup r) = None.
Proof.
  unfold Tidy, cleanup. destruct (gyroCleanupRef r) as [i|] eqn:E; simpl.
  - intros ->. simpl. destruct (Nat.eq_dec i i); [auto | contradiction].
  - rewrite E. auto.
Qed.

Lemma initializeGyro_run_tidy p r :
  Tidy r ->
  Tidy (initializeGyro_run p r) /\
  List.length (listeners (initializeGyro_run p r))
  = match gyroOutcome p with Listening => 1%nat | _ => 0%nat end.
Proof.
  intros T. destruct (cleanup_tidy r T) as [Hl Hr].
  unfold initializeGyro_run, initializeGyro_end, initializeGyro_begin, Tidy.
  destruct (gyroOutcome p); simpl; rewrite ?Hl, ?Hr; auto.
Qed.

Lemma setups_tidy p n : Tidy (setups p n).
Proof.
  induction n as [|n IH].
  - unfold setups, mountEffect, Tidy. simpl.
    destruct (effectApplies p); reflexivity.
  - change (setups p (S n)) with (initializeGyro_run p (setups p n)).
    apply initializeGyro_run_tidy. exact IH.
Qed.

(** Runs of [initializeGyro] that follow one another never pile up
    listeners: after mount and any number of runs at most one listener is
    attached, and after a run there is exactly one if permission was given
    and none otherwise, the one attached before having been removed before
    permission was asked. *)
Theorem one_listener_at_most p n :
  (List.length (listeners (setups p n)) <= 1)%nat /\
  List.length (listeners (setups p (S n)))
  = match gyroOutcome p with Listening => 1%nat | _ => 0%nat end.
Proof.
  split.
  - pose proof (setups_tidy p n) as T. unfold Tidy in T. rewrite T.
    destruct (gyroCleanupRef (setups p n)); simpl; lia.
  - change (setups p (S n)) with (initializeGyro_run p (setups p n)).
    apply initializeGyro_run_tidy, setups_tidy.
Qed.

(** Two runs that overlap leave two listeners attached. *)
Example overlapping_runs_leak :
  let p := {| isIOS := true;
              orientationAPI := Some {| requestPermission :=
                                          Some (Return "granted"%string) |} |} in
  listeners (initializeGyro_end p
               (initializeGyro_end p
                  (initializeGyro_begin (initializeGyro_begin emptyRegistry))))
  = [0%nat; 1%nat].
Proof. reflexivity. Qed.

(** Unmounting removes the listener where the mount effect applied (not iOS,
    and the global is there); on iOS the effect returns no clean-up, and a
    listener attached by [initializeGyro] stays on [window]. *)
Theorem unmount_cleans_only_off_iOS p n :
  (effectApplies p = true -> listeners (unmountEffect p (setups p n)) = []) /\
  (isIOS p = true -> gyroOutcome p = Listening ->
   List.length (listeners (unmountEffect p (setups p (S n)))) = 1%nat).
Proof.
  split.
  - intros E. unfold unmountEffect. rewrite E.
    apply cleanup_tidy, setups_tidy.
  - intros I L. unfold unmountEffect, effectApplies. rewrite I.
    cbn [negb andb].
    change (setups p (S n)) with (initializeGyro_run p (setups p n)).
    destruct (initializeGyro_run_tidy p (setups p n) (setups_tidy p n)) as [_ H].
    rewrite H, L. reflexivity.
Qed.

(** ** The bars of [GyroVisualizer] *)

Lemma leb_not_nan_r x y : PrimFloat.leb x y = true -> is_nan y = false.
Proof.
  rewrite FloatAxioms.leb_spec. unfold is_nan. rewrite FloatAxioms.eqb_spec.
  unfold SFleb, SFeqb.
  destruct (Prim2SF y) as [s| s| |s m e];
    destruct (Prim2SF x) as [s'|s'| |s' m' e']; simpl;
    try discriminate; intros _; try reflexivity;
    try (destruct s; reflexivity).
  all: destruct s; rewrite Z.compare_refl, Pos.compare_cont_refl; reflexivity.
Qed.

Lemma leb_not_nan_l x y : PrimFloat.leb x y = true -> is_nan x = false.
Proof.
  rewrite FloatAxioms.leb_spec. unfold is_nan. rewrite FloatAxioms.eqb_spec.
  unfold SFleb, SFeqb.
  destruct (Prim2SF x) as [s| s| |s m e];
    destruct (Prim2SF y) as [s'|s'| |s' m' e']; simpl;
    try discriminate; intros _; try reflexivity;
    try (destruct s; reflexivity).
  all: destruct s; rewrite Z.compare_refl, Pos.compare_cont_refl; reflexivity.
Qed.

(** From [90 <= v]: [v < 90] is false. *)
Lemma at_least_90 v :
  PrimFloat.leb 90 v = true -> PrimFloat.ltb v 90 = false.
Proof.
  rewrite FloatAxioms.leb_spec, FloatAxioms.ltb_spec.
  change (Prim2SF 90) with (S754_finite false 6333186975989760 (-46)).
  unfold SFleb, SFltb, SFcompare.
  destruct (Prim2SF v) as [s| s| |s m e]; cbv beta iota; try discriminate.
  - destruct s; [discriminate | reflexivity].
  - destruct s; [discriminate|].
    rewrite (Z.compare_antisym e (-46)%Z).
    destruct (e ?= -46)%Z; cbn [CompOpp]; try discriminate; try reflexivity.
    pose proof (Pos.compare_cont_antisym 6333186975989760 m Eq) as A.
    cbn [CompOpp] in A. rewrite <- A.
    destruct (PosDef.Pos.compare_cont Eq 6333186975989760 m); cbn [CompOpp];
      try discriminate; reflexivity.
Qed.

(** From [v <= -90]: [v < 90], and neither [90 < v] nor [-90 < v]. *)
Lemma at_most_minus_90 v :
  PrimFloat.leb v (-90) = true ->
  PrimFloat.ltb v 90 = true /\ PrimFloat.ltb 90 v = false /\
  PrimFloat.ltb (-90) v = false.
Proof.
  rewrite FloatAxioms.leb_spec, !FloatAxioms.ltb_spec.
  change (Prim2SF 90) with (S754_finite false 6333186975989760 (-46)).
  change (Prim2SF (-90)) with (S754_finite true 6333186975989760 (-46)).
  unfold SFleb, SFltb, SFcompare.
  destruct (Prim2SF v) as [s| s| |s m e]; cbv beta iota; try discriminate.
  - destruct s; [auto | discriminate].
  - destruct s; [|discriminate].
    rewrite (Z.compare_antisym e (-46)%Z).
    destruct (e ?= -46)%Z; cbn [CompOpp]; try discriminate; auto.
    pose proof (Pos.compare_cont_antisym m 6333186975989760 Eq) as A.
    cbn [CompOpp] in A. rewrite <- A.
    destruct (PosDef.Pos.compare_cont Eq m 6333186975989760); cbn [CompOpp];
      try discriminate; auto.
Qed.

(** The two ends of [normalize]. *)
Lemma normalize_saturation v :
  PrimFloat.leb 90 v = true \/ PrimFloat.leb v (-90) = true ->
  normalize (Some v) = if PrimFloat.leb 90 v then 100%float else 0%float.
Proof.
  intros [H|H].
  - rewrite H. pose proof (leb_not_nan_r _ _ H) as Hn.
    pose proof (at_least_90 v H) as Hl.
    unfold normalize, Math_min. rewrite Hn, Hl.
    change (is_nan 90 || false) with false. cbv iota.
    destruct (PrimFloat.ltb 90 v); vm_compute; reflexivity.
  - pose proof (leb_not_nan_l _ _ H) as Hn.
    destruct (at_most_minus_90 v H) as (H1 & H2 & H3).
    assert (L : PrimFloat.leb 90 v = false).
    { destruct (PrimFloat.leb 90 v) eqn:E; [|reflexivity].
      apply at_least_90 in E. congruence. }
    rewrite L.
    unfold normalize, Math_min. rewrite Hn, H1, H2.
    change (is_nan 90 || false) with false. cbv iota.
    unfold Math_max. rewrite Hn, H3.
    change (is_nan (-90) || false) with false. cbv iota.
    destruct (PrimFloat.ltb v (-90)); vm_compute; reflexivity.
Qed.

(** [normalize] saturates: an angle of 90 degrees or more gives a full bar
    (exactly 100), an angle of -90 degrees or less an empty one (exactly
    0). *)
Theorem normalize_saturates v :
  PrimFloat.leb 90 v = true \/ PrimFloat.leb v (-90) = true ->
  normalize (Some v) = if PrimFloat.leb 90 v then 100%float else 0%float.
Proof. exact (normalize_saturation v). Qed.

Lemma normalize_saturates_witness :
  normalize (Some 135%float) = 100%float.
Proof.
  apply (normalize_saturates 135%float). left. reflexivity.
Defined.

(** The yaw bar is full for every heading of 90 degrees or more: in
    [normalize(data.alpha ?? 0 / 4)] the division applies to the literal 0
    only, so a reported [alpha] reaches [normalize] undivided. *)
Theorem yaw_bar_full_from_90 data a :
  alpha data = Some a ->
  PrimFloat.leb 90 a = true ->
  yawWidth data = 100%float.
Proof.
  intros Ha H. unfold yawWidth. rewrite Ha.
  rewrite (normalize_saturation a (or_introl H)), H. reflexivity.
Qed.

Lemma yaw_bar_full_from_90_witness :
  yawWidth {| alpha := Some 180%float; beta := None; gamma := None |} = 100%float.
Proof.
  apply (yaw_bar_full_from_90
           {| alpha := Some 180%float; beta := None; gamma := None |} 180%float);
    reflexivity.
Defined.

(** An angle that is missing, and an angle of 0, put the bar in the
    middle. *)
Example bars_centred :
  normalize None = 50%float /\ normalize (Some 0%float) = 50%float /\
  yawWidth {| alpha := None; beta := None; gamma := None |} = 50%float.
Proof. vm_compute. auto. Qed.

(** ** What the user sees *)

Import View.

Lemma catalog_instructions c :
  In c CHALLENGES -> instruction c <> EmptyString /\ instruction c <> initializing.
Proof.
  simpl. intros [<-|[<-|[<-|[<-|[]]]]]; split; discriminate.
Qed.

(** Whenever the instruction widget is rendered it shows the instruction of
    a challenge of the catalog, the one of the attempt under way; the
    fallback text is never on display. *)
Theorem instruction_is_from_catalog w :
  reachable w ->
  showsInstruction (app w) = true ->
  exists c, currentChallenge (app w) = Some c /\ In c CHALLENGES /\
            instructionText (app w) = instruction c /\
            instructionText (app w) <> initializing.
Proof.
  intros R S.
  assert (C : catalogued (currentChallenge (app w))).
  { destruct (reachable_Phase w R)
      as [due cb Ht Hi Hs Hr He Hc Hcur Hcam | call Ht Hi Hs Hr He Hc Hcam | Ht Hi H].
    - rewrite Hcur. exact Hc.
    - destruct (pending_challenge_current w R) as [_ J].
      rewrite <- (J call); [exact Hc | rewrite Hi; left; reflexivity].
    - exfalso. revert S. unfold showsInstruction.
      destruct H as [[Hs _] | ([Hs|Hs] & _)]; rewrite Hs; discriminate. }
  destruct C as (c & Hc & Hin). exists c.
  destruct (catalog_instructions c Hin) as [N1 N2].
  unfold instructionText. rewrite Hc.
  destruct (instruction c) eqn:E; [contradiction|].
  repeat split; auto.
Qed.

Lemma instruction_is_from_catalog_witness :
  exists c, currentChallenge (app (after untilCall)) = Some c /\
            In c CHALLENGES /\
            instructionText (app (after untilCall)) = instruction c /\
            instructionText (app (after untilCall)) <> initializing.
Proof.
  apply (instruction_is_from_catalog (after untilCall)).
  - apply after_reachable.
  - vm_compute. reflexivity.
Defined.

(** The controls never overlap: while no attempt is under way exactly one of
    the set-up button, the start button, a reset button and the sensor
    notice is rendered, and while a timer or a call is pending none of them
    is. *)
Theorem one_control_at_rest w :
  reachable w ->
  controls (app w) = match timers w, inflight w with
                     | [], [] => 1%nat
                     | _, _ => 0%nat
                     end.
Proof.
  intros R. unfold controls, showsSetup, showsStart, showsReset, showsSensorNotice.
  destruct (reachable_Phase w R)
    as [due cb Ht Hi Hs Hr He Hc Hcur Hcam | call Ht Hi Hs Hr He Hc Hcam | Ht Hi H].
  - assert (P : timers w <> []) by (rewrite Ht; discriminate).
    destruct (ready_once_started w R (or_intror (or_introl P)))
      as [_ Hg].
    rewrite Ht, Hs, Hcam, Hg. reflexivity.
  - assert (P : inflight w <> []) by (rewrite Hi; discriminate).
    destruct (ready_once_started w R (or_intror (or_intror P)))
      as [_ Hg].
    rewrite Ht, Hi, Hs, Hcam, Hg. reflexivity.
  - rewrite Ht, Hi. destruct H as [[Hs _] | (Hs & _ & _ & Hcam)].
    + rewrite Hs. simpl.
      destruct (isCameraReady (app w)), (isGyroReady (app w)); reflexivity.
    + assert (P : status (app w) <> IDLE) by (destruct Hs as [Hs|Hs]; congruence).
      destruct (ready_once_started w R (or_introl P)) as [_ Hg].
      rewrite Hcam, Hg. destruct Hs as [Hs|Hs]; rewrite Hs; reflexivity.
Qed.

Lemma one_control_at_rest_witness :
  controls (app (after untilCall))
  = match timers (after untilCall), inflight (after untilCall) with
    | [], [] => 1%nat
    | _, _ => 0%nat
    end.
Proof.
  apply (one_control_at_rest (after untilCall)). apply after_reachable.
Defined.
